(** * PSTL iterator adaptors: range, strided, zip and the tuple toolkit

    A shallow embedding of [include/xstd/range.hpp], [strided.hpp],
    [include/xstd/zip.hpp] and of the tuple algorithms the zip iterator is
    built on, with the properties of their comparison, distance and
    traversal operators.  [check_same] of [test/helpers.hpp] and the
    [StopWatch] of [include/xstd/stop_watch.hpp], on the ticks of its
    clock, come after them.

    Conventions of the embedding.
    - The range adaptor comes twice.  [Range] has the comparisons and the
      increment of its cursor on [Z], as they are for as long as no value
      leaves the type [Incrementable].  [RangeInt] has all its operators
      on the integer types of C++, given by [Integer]: operands are
      promoted and brought to a common type, a signed overflow is
      undefined, unsigned arithmetic and the conversions wrap around.
      The positions and differences of the other iterators are [Z].  The
      C++ [/] on integers truncates toward zero: it is [Z.quot].
    - A [std::tuple<Ts...>] is the list of its elements, taken in one type
      that is the sum of the [Ts]; a generic lambda is a function on it.
    - An operation that [assert]s, that is undefined (an empty
      [std::min], a dereference out of the sequence) or that cannot be
      instantiated (mismatching parameter packs) yields [None].
    - The loop [for (it = begin(); it != end(); ++it)] takes fuel. *)

From Stdlib Require Import ZArith List Bool Lia.
Import ListNotations.

Local Open Scope Z_scope.

(** ** Small option combinators *)

Definition assert {A : Type} (b : bool) (k : option A) : option A :=
  if b then k else None.

Definition bind {A B : Type} (m : option A) (f : A -> option B) : option B :=
  match m with
  | Some a => f a
  | None => None
  end.

Notation "x <- m ;; k" := (bind m (fun x => k))
  (at level 61, m at next level, right associativity).

Fixpoint sequence {A : Type} (l : list (option A)) : option (list A) :=
  match l with
  | [] => Some []
  | o :: r => a <- o ;; s <- sequence r ;; Some (a :: s)
  end.

(** ** Tuple algorithms ([xstd] over [std::tuple]) *)

Module Algorithm.

(** [std::get<I>(t)]: no instantiation past the size of the tuple. *)
Definition get {T : Type} (I : nat) (t : list T) : option T := nth_error t I.

(** [for_each(t, p)]: the left fold [(..., p(xs))]; [p] takes each element
    by reference and carries its own state. *)
Fixpoint for_each {T St : Type} (t : list T) (p : T -> St -> T * St) (s : St)
    : list T * St :=
  match t with
  | [] => ([], s)
  | x :: r =>
      let (x', s1) := p x s in
      let (r', s2) := for_each r p s1 in
      (x' :: r', s2)
  end.

Section Tuples.
Context {T1 T2 R W : Type}.

(** [std::make_index_sequence<N>]. *)
Definition make_index_sequence (N : nat) : list nat := seq 0 N.

(** [detail::transform_impl(inputs, pred, index_sequence<Is...>)]. *)
Definition transform_impl (inputs : list T1) (pred : T1 -> R)
    (Is : list nat) : option (list R) :=
  sequence (map (fun I => x <- get I inputs ;; Some (pred x)) Is).

(** [detail::transform_impl(t1, t2, pred, index_sequence<Is...>)]: the
    result type [std::tuple<std::result_of_t<BinaryPredicate(Ts1,Ts2)>...>]
    expands [Ts1] and [Ts2] together, which asks for packs of one
    length; each [Is] is then used on both tuples. *)
Definition transform_impl2 (t1 : list T1) (t2 : list T2) (pred : T1 -> T2 -> R)
    (Is : list nat) : option (list R) :=
  assert (Nat.eqb (length t1) (length t2))
    (sequence (map (fun I => a <- get I t1 ;; b <- get I t2 ;; Some (pred a b)) Is)).

(** [transform(inputs, function)]. *)
Definition transform (inputs : list T1) (function : T1 -> R) : option (list R) :=
  transform_impl inputs function (make_index_sequence (length inputs)).

(** [transform(t1, t2, function)]: the index sequence is that of [Ts1]. *)
Definition transform2 (t1 : list T1) (t2 : list T2) (function : T1 -> T2 -> R)
    : option (list R) :=
  transform_impl2 t1 t2 function (make_index_sequence (length t1)).

(** [detail::for_each_impl(t1, t2, f, index_sequence<I...>)]: the calls
    [f(get<I>(t1), get<I>(t2))] in the order of the [I], [f] with its own
    state. *)
Definition for_each_impl2 {St : Type} (t1 : list T1) (t2 : list T2)
    (f : T1 -> T2 -> St -> St) (Is : list nat) (s : St) : option St :=
  fold_left
    (fun acc I => s <- acc ;; a <- get I t1 ;; b <- get I t2 ;; Some (f a b s))
    Is (Some s).

(** [for_each(t1, t2, f)]: the index sequence is that of the smaller of
    the two sizes. *)
Definition for_each2 {St : Type} (t1 : list T1) (t2 : list T2)
    (f : T1 -> T2 -> St -> St) (s : St) : option St :=
  let t1_size := length t1 in
  let t2_size := length t2 in
  let size := Nat.min t1_size t2_size in
  for_each_impl2 t1 t2 f (make_index_sequence size) s.

(** The lambda of [perform]: its state is the counter [current_index],
    held by reference, and whatever [action] acts on. *)
Definition perform_lambda (index : nat) (action : T1 -> W -> T1 * W)
    (value : T1) (s : nat * W) : T1 * (nat * W) :=
  let (current_index, w) := s in
  if Nat.eqb index current_index
  then let (value', w') := action value w in
       (value', (S current_index, w'))
  else (value, (S current_index, w)).

(** [perform(t, index, action)]. *)
Definition perform (t : list T1) (index : nat) (action : T1 -> W -> T1 * W)
    (w : W) : list T1 * W :=
  let current_index := 0%nat in
  let (t', s) := for_each t (perform_lambda index action) (current_index, w) in
  (t', snd s).
End Tuples.

(** [all_of(t, p)]: the fold [(p(xs) && ...)]. *)
Definition all_of {T : Type} (t : list T) (p : T -> bool) : bool :=
  fold_right (fun x acc => p x && acc) true t.

(** [any_of(t, p)]: the fold [(p(xs) || ...)]. *)
Definition any_of {T : Type} (t : list T) (p : T -> bool) : bool :=
  fold_right (fun x acc => p x || acc) false t.

(** [none_of(t, p)]. *)
Definition none_of {T : Type} (t : list T) (p : T -> bool) : bool :=
  negb (fold_right (fun x acc => p x || acc) false t).

(** The two-tuple quantifiers: [transform], then the unary one on the
    identity. *)
Definition all_of2 {T1 T2 : Type} (t1 : list T1) (t2 : list T2)
    (p : T1 -> T2 -> bool) : option bool :=
  result <- transform2 t1 t2 p ;; Some (all_of result (fun val => val)).

Definition any_of2 {T1 T2 : Type} (t1 : list T1) (t2 : list T2)
    (p : T1 -> T2 -> bool) : option bool :=
  result <- transform2 t1 t2 p ;; Some (any_of result (fun val => val)).

Definition none_of2 {T1 T2 : Type} (t1 : list T1) (t2 : list T2)
    (p : T1 -> T2 -> bool) : option bool :=
  result <- transform2 t1 t2 p ;; Some (none_of result (fun val => val)).

(** [std::min(std::initializer_list)]: the leftmost smallest element, and
    undefined on no element. *)
Definition std_min (xs : list Z) : option Z :=
  match xs with
  | [] => None
  | x :: r => Some (fold_left (fun m v => if v <? m then v else m) r x)
  end.

(** [min(t)] on a tuple of elements of one signed type, as the
    differences of iterators are: the cast to the common type changes
    none of them. *)
Definition min (t : list Z) : option Z := std_min t.

(** [std::max(std::initializer_list)]: the leftmost greatest element,
    and undefined on no element. *)
Definition std_max (xs : list Z) : option Z :=
  match xs with
  | [] => None
  | x :: r => Some (fold_left (fun m v => if m <? v then v else m) r x)
  end.

(** [count_if(t, p)]: the lambda counts in [count], held by reference. *)
Definition count_if {T : Type} (t : list T) (p : T -> bool) : nat :=
  let count := 0%nat in
  snd (for_each t
         (fun value count => (value, if p value then S count else count))
         count).

(** The state of the lambda of [find_if]: [index], [current_index] and
    [found], all held by reference. *)
Record find_state := {
  index : nat;
  current_index : nat;
  found : bool
}.

(** [find_if(t, p)]. *)
Definition find_if {T : Type} (t : list T) (p : T -> bool) : nat :=
  let start :=
    {| index := length t; current_index := 0%nat; found := false |} in
  index
    (snd (for_each t
            (fun value s =>
               (value,
                if negb (found s) && p value
                then {| index := current_index s;
                        current_index := S (current_index s);
                        found := true |}
                else {| index := index s;
                        current_index := S (current_index s);
                        found := found s |}))
            start)).

(** [t] with its element [k] replaced. *)
Definition replace_nth {T : Type} (k : nat) (v : T) (t : list T) : list T :=
  firstn k t ++ v :: skipn (S k) t.

End Algorithm.

(** ** The iterators the adaptors wrap *)

(** What [strided_iterator] and [zip_iterator] use of the iterators they
    hold: [a == b], [a < b], [a - b], [it += n] and [*it] on elements of
    type [V]. *)
Class RandomAccessIterator (I V : Type) := {
  it_eq : I -> I -> bool;
  it_lt : I -> I -> bool;
  it_minus : I -> I -> Z;
  it_plus : I -> Z -> I;
  it_deref : I -> option V
}.

(** [std::distance(first, last)] and [std::advance(it, n)] on random
    access iterators. *)
Definition distance {I V : Type} `{RandomAccessIterator I V} (first last : I) : Z :=
  it_minus last first.

Definition advance {I V : Type} `{RandomAccessIterator I V} (it : I) (n : Z) : I :=
  it_plus it n.

(** A [std::vector<V>::iterator]: a position in its sequence, compared
    with iterators of the same sequence only. *)
Record vector_iterator (V : Type) := {
  base : list V;
  idx : Z
}.
Arguments base {V} _.
Arguments idx {V} _.

Definition vector_deref {V : Type} (it : vector_iterator V) : option V :=
  if (0 <=? idx it) && (idx it <? Z.of_nat (length (base it)))
  then nth_error (base it) (Z.to_nat (idx it))
  else None.

#[export] Instance vector_iterator_ops (V : Type)
    : RandomAccessIterator (vector_iterator V) V := {
  it_eq a b := idx a =? idx b;
  it_lt a b := idx a <? idx b;
  it_minus a b := idx a - idx b;
  it_plus a n := {| base := base a; idx := idx a + n |};
  it_deref := vector_deref
}.

(** [std::begin(c)] and [std::end(c)]. *)
Definition std_begin {V : Type} (c : list V) : vector_iterator V :=
  {| base := c; idx := 0 |}.

Definition std_end {V : Type} (c : list V) : vector_iterator V :=
  {| base := c; idx := Z.of_nat (length c) |}.

(** ** The traversal of a view *)

Section Traversal.
Context {C : Type} (op_ne : C -> C -> option bool) (op_incr : C -> C).

(** [for (it = first; it != last; ++it) body(it)]: the cursors the body
    ran at, in order. *)
Fixpoint traverse (fuel : nat) (it last : C) : option (list C) :=
  match fuel with
  | O => None
  | S fuel' =>
      b <- op_ne it last ;;
      if b
      then r <- traverse fuel' (op_incr it) last ;; Some (it :: r)
      else Some []
  end.

End Traversal.

(** ** [range.hpp] *)

Module Range.

Record range_iterator := {
  value_ : Z;
  step_ : Z
}.

(** [operator++]. *)
Definition op_incr (it : range_iterator) : range_iterator :=
  {| value_ := value_ it + step_ it; step_ := step_ it |}.

(** [operator*]. *)
Definition op_deref (it : range_iterator) : Z := value_ it.

(** [operator==]. *)
Definition op_eq (x y : range_iterator) : option bool :=
  assert (step_ x =? step_ y)
    (Some (if step_ x >? 0
           then (value_ y <? value_ x) || (value_ y =? value_ x)
           else (value_ x <? value_ y))).

(** [operator!=]. *)
Definition op_ne (x y : range_iterator) : option bool :=
  b <- op_eq x y ;; Some (negb b).

(** [operator<]. *)
Definition op_lt (x y : range_iterator) : bool := value_ x <? value_ y.

Record range_proxy := {
  first_ : Z;
  last_ : Z;
  proxy_step_ : Z
}.

Definition begin_ (p : range_proxy) : range_iterator :=
  {| value_ := first_ p; step_ := proxy_step_ p |}.

Definition end_ (p : range_proxy) : range_iterator :=
  {| value_ := last_ p; step_ := proxy_step_ p |}.

(** [range(first, last, step)], [range(first, last)] and [range(last)]. *)
Definition range (first last step : Z) : range_proxy :=
  {| first_ := first; last_ := last; proxy_step_ := step |}.

Definition range2 (first last : Z) : range_proxy := range first last 1.

Definition range1 (last : Z) : range_proxy := range 0 last 1.

(** The values of [for (auto i : p)]. *)
Definition elements (fuel : nat) (p : range_proxy) : option (list Z) :=
  cs <- traverse op_ne op_incr fuel (begin_ p) (end_ p) ;; Some (map op_deref cs).

(** The least [n] with [b * n >= a], for [b > 0]. *)
Definition ceil_div (a b : Z) : Z := (a + b - 1) / b.

End Range.

(** ** The integer types of C++ *)

Module Integer.

(** An integer type: whether it is signed, and its width in bits. *)
Record int_type := {
  is_signed : bool;
  width : Z
}.

Definition min_value (T : int_type) : Z :=
  if is_signed T then - 2 ^ (width T - 1) else 0.

Definition max_value (T : int_type) : Z :=
  if is_signed T then 2 ^ (width T - 1) - 1 else 2 ^ width T - 1.

Definition in_range (T : int_type) (z : Z) : bool :=
  (min_value T <=? z) && (z <=? max_value T).

(** The conversion of an integer to [T]: the value of [T] that is equal
    to it modulo [2 ^ width]. *)
Definition convert (T : int_type) (z : Z) : Z :=
  if is_signed T
  then (z + 2 ^ (width T - 1)) mod 2 ^ width T - 2 ^ (width T - 1)
  else z mod 2 ^ width T.

(** [int] and [std::ptrdiff_t], as on the 64-bit platforms the
    repository is built for. *)
Definition int : int_type := {| is_signed := true; width := 32 |}.

Definition ptrdiff_t : int_type := {| is_signed := true; width := 64 |}.

(** The integral promotion: a type narrower than [int] becomes [int]. *)
Definition promote (T : int_type) : int_type :=
  if width T <? width int then int else T.

(** The usual arithmetic conversions: the type two operands are brought
    to. *)
Definition common (A B : int_type) : int_type :=
  let A := promote A in
  let B := promote B in
  if Bool.eqb (is_signed A) (is_signed B)
  then (if width A <? width B then B else A)
  else
    let U := if is_signed A then B else A in
    let S := if is_signed A then A else B in
    if width S <=? width U then U else S.

(** The value of an operation in the type [C]: an overflow is undefined
    in a signed type, and wraps around in an unsigned one. *)
Definition result (C : int_type) (r : Z) : option Z :=
  if is_signed C
  then assert (in_range C r) (Some r)
  else Some (r mod 2 ^ width C).

(** [a + b], [a - b], [a * b] and [a / b] on [a] of type [A] and [b] of
    type [B]; the value is of type [common A B]. *)
Definition c_add (A B : int_type) (a b : Z) : option Z :=
  let C := common A B in result C (convert C a + convert C b).

Definition c_sub (A B : int_type) (a b : Z) : option Z :=
  let C := common A B in result C (convert C a - convert C b).

Definition c_mul (A B : int_type) (a b : Z) : option Z :=
  let C := common A B in result C (convert C a * convert C b).

Definition c_div (A B : int_type) (a b : Z) : option Z :=
  let C := common A B in
  assert (negb (convert C b =? 0))
    (result C (Z.quot (convert C a) (convert C b))).

(** [a < b], [a > b] and [a == b]. *)
Definition c_lt (A B : int_type) (a b : Z) : bool :=
  let C := common A B in convert C a <? convert C b.

Definition c_gt (A B : int_type) (a b : Z) : bool :=
  let C := common A B in convert C a >? convert C b.

Definition c_eq (A B : int_type) (a b : Z) : bool :=
  let C := common A B in convert C a =? convert C b.

End Integer.

(** ** [range.hpp], [Incrementable] an integer type of C++ *)

Module RangeInt.

Import Integer.

Record range_iterator := {
  value_ : Z;
  step_ : Z
}.

Record range_proxy := {
  first_ : Z;
  last_ : Z;
  proxy_step_ : Z
}.

Section Incrementable.
Variable T : int_type.

(** [operator++]: [value_ += step_]. *)
Definition op_incr (it : range_iterator) : option range_iterator :=
  v <- c_add T T (value_ it) (step_ it) ;;
  Some {| value_ := convert T v; step_ := step_ it |}.

(** [operator+=]: [value_ += inc * step_], [inc] a [difference_type]. *)
Definition op_plus_assign (it : range_iterator) (inc : Z) : option range_iterator :=
  m <- c_mul ptrdiff_t T inc (step_ it) ;;
  v <- c_add T (common ptrdiff_t T) (value_ it) m ;;
  Some {| value_ := convert T v; step_ := step_ it |}.

(** [operator--]: [value_ -= step_]. *)
Definition op_decr (it : range_iterator) : option range_iterator :=
  v <- c_sub T T (value_ it) (step_ it) ;;
  Some {| value_ := convert T v; step_ := step_ it |}.

(** [operator-=]: [value_ -= inc * step_]. *)
Definition op_minus_assign (it : range_iterator) (inc : Z) : option range_iterator :=
  m <- c_mul ptrdiff_t T inc (step_ it) ;;
  v <- c_sub T (common ptrdiff_t T) (value_ it) m ;;
  Some {| value_ := convert T v; step_ := step_ it |}.

(** [operator[]]: [value_ + n * step_], returned as a [value_type]. *)
Definition op_index (it : range_iterator) (n : Z) : option Z :=
  m <- c_mul ptrdiff_t T n (step_ it) ;;
  v <- c_add T (common ptrdiff_t T) (value_ it) m ;;
  Some (convert T v).

(** [operator*]. *)
Definition op_deref (it : range_iterator) : Z := value_ it.

(** [operator==]. *)
Definition op_eq (x y : range_iterator) : option bool :=
  assert (c_eq T T (step_ x) (step_ y))
    (Some (if c_gt T int (step_ x) 0
           then c_lt T T (value_ y) (value_ x) || c_eq T T (value_ y) (value_ x)
           else c_lt T T (value_ x) (value_ y))).

(** [operator!=]. *)
Definition op_ne (x y : range_iterator) : option bool :=
  b <- op_eq x y ;; Some (negb b).

(** [operator<]. *)
Definition op_lt (x y : range_iterator) : bool :=
  c_lt T T (value_ x) (value_ y).

(** [operator-]: [(x.value_ - y.value_) / x.step_], returned as a
    [difference_type]. *)
Definition op_minus (x y : range_iterator) : option Z :=
  assert (c_eq T T (step_ x) (step_ y))
    (d <- c_sub T T (value_ x) (value_ y) ;;
     q <- c_div (common T T) T d (step_ x) ;;
     Some (convert ptrdiff_t q)).

(** [operator+(range_iterator x, difference_type y)]: [x += y * x.step_],
    the product brought to the [difference_type] that [+=] takes. *)
Definition op_plus (x : range_iterator) (y : Z) : option range_iterator :=
  m <- c_mul ptrdiff_t T y (step_ x) ;;
  op_plus_assign x (convert ptrdiff_t m).

Definition begin_ (p : range_proxy) : range_iterator :=
  {| value_ := first_ p; step_ := proxy_step_ p |}.

Definition end_ (p : range_proxy) : range_iterator :=
  {| value_ := last_ p; step_ := proxy_step_ p |}.

(** [range(first, last, step)]. *)
Definition range (first last step : Z) : range_proxy :=
  {| first_ := first; last_ := last; proxy_step_ := step |}.

(** The cursor of the loop, lost once an operation on it is undefined. *)
Definition next (c : option range_iterator) : option range_iterator :=
  it <- c ;; op_incr it.

Definition differs (c e : option range_iterator) : option bool :=
  x <- c ;; y <- e ;; op_ne x y.

(** The values of [for (auto i : p)]. *)
Definition elements (fuel : nat) (p : range_proxy) : option (list Z) :=
  cs <- traverse differs next fuel (Some (begin_ p)) (Some (end_ p)) ;;
  its <- sequence cs ;;
  Some (map op_deref its).

End Incrementable.

End RangeInt.

(** ** [min] and [max] of [zip.hpp] on tuples of integers of C++ *)

Module TupleInt.

Import Integer.

Definition int_type_eqb (A B : int_type) : bool :=
  Bool.eqb (is_signed A) (is_signed B) && (width A =? width B).

(** [std::common_type_t<A, B>]: the type of [false ? a : b], which is
    [A] for two operands of type [A] and the type of the usual
    arithmetic conversions otherwise. *)
Definition common_type2 (A B : int_type) : int_type :=
  if int_type_eqb A B then A else common A B.

(** [std::common_type_t<Ts...>], which no types have none of. *)
Definition common_type (Ts : list int_type) : option int_type :=
  match Ts with
  | [] => None
  | T :: r => Some (fold_left common_type2 r T)
  end.

(** [min(t)]: [std::min] of the elements, each cast to the common type. *)
Definition min (t : list (int_type * Z)) : option Z :=
  return_type <- common_type (map fst t) ;;
  Algorithm.std_min (map (fun x => convert return_type (snd x)) t).

(** [max(t)]. *)
Definition max (t : list (int_type * Z)) : option Z :=
  return_type <- common_type (map fst t) ;;
  Algorithm.std_max (map (fun x => convert return_type (snd x)) t).

End TupleInt.

(** ** [strided.hpp] *)

Module Strided.

Record strided_iterator (I : Type) := {
  iterator_ : I;
  stride_ : Z
}.
Arguments iterator_ {I} _.
Arguments stride_ {I} _.

Record strided_proxy (I : Type) := {
  first_ : I;
  last_ : I;
  proxy_stride_ : Z
}.
Arguments first_ {I} _.
Arguments last_ {I} _.
Arguments proxy_stride_ {I} _.

Section Strided.
Context {I V : Type} `{RandomAccessIterator I V}.

(** The constructor, with its [assert(stride != 0)]. *)
Definition make (iterator : I) (stride : Z) : option (strided_iterator I) :=
  assert (negb (stride =? 0)) (Some {| iterator_ := iterator; stride_ := stride |}).

(** [operator++]. *)
Definition op_incr (it : strided_iterator I) : strided_iterator I :=
  {| iterator_ := advance (iterator_ it) (stride_ it); stride_ := stride_ it |}.

(** [operator*]. *)
Definition op_deref (it : strided_iterator I) : option V := it_deref (iterator_ it).

(** [operator+=]. *)
Definition op_plus_assign (it : strided_iterator I) (inc : Z) : strided_iterator I :=
  {| iterator_ := advance (iterator_ it) (inc * stride_ it); stride_ := stride_ it |}.

(** [operator--]. *)
Definition op_decr (it : strided_iterator I) : strided_iterator I :=
  {| iterator_ := advance (iterator_ it) (- stride_ it); stride_ := stride_ it |}.

(** [operator-=]. *)
Definition op_minus_assign (it : strided_iterator I) (inc : Z) : strided_iterator I :=
  {| iterator_ := advance (iterator_ it) (- inc * stride_ it); stride_ := stride_ it |}.

(** [operator[]]. *)
Definition op_index (it : strided_iterator I) (n : Z) : option V :=
  let tmp := iterator_ it in
  let tmp := advance tmp (n * stride_ it) in
  it_deref tmp.

(** [operator+(strided_iterator x, difference_type y)]. *)
Definition op_plus (x : strided_iterator I) (y : Z) : strided_iterator I :=
  op_plus_assign x y.

(** [operator-]. *)
Definition op_minus (x y : strided_iterator I) : option Z :=
  assert (stride_ x =? stride_ y)
    (assert (negb (stride_ x =? 0))
       (Some (Z.quot (distance (iterator_ y) (iterator_ x)) (stride_ x)))).

(** [operator==]. *)
Definition op_eq (x y : strided_iterator I) : option bool :=
  assert (stride_ x =? stride_ y)
    (d <- op_minus x y ;; Some (d =? 0)).

(** [operator!=]. *)
Definition op_ne (x y : strided_iterator I) : option bool :=
  assert (stride_ x =? stride_ y)
    (b <- op_eq x y ;; Some (negb b)).

(** [operator<]. *)
Definition op_lt (x y : strided_iterator I) : option bool :=
  assert (stride_ x =? stride_ y)
    (assert (negb (stride_ x =? 0))
       (Some (Z.quot (distance (iterator_ x) (iterator_ y)) (stride_ x) >? 0))).

Definition begin_ (p : strided_proxy I) : option (strided_iterator I) :=
  make (first_ p) (proxy_stride_ p).

Definition end_ (p : strided_proxy I) : option (strided_iterator I) :=
  make (last_ p) (proxy_stride_ p).

(** [strided_proxy::size]. *)
Definition size (p : strided_proxy I) : option Z :=
  assert (negb (proxy_stride_ p =? 0))
    (Some (Z.quot (distance (first_ p) (last_ p)) (proxy_stride_ p))).

(** [strided_proxy::stride]. *)
Definition stride (p : strided_proxy I) : Z := proxy_stride_ p.

(** [strided(first, last, stride)]. *)
Definition strided_range (first last : I) (stride : Z) : option (strided_proxy I) :=
  assert (negb (stride =? 0))
    (Some {| first_ := first; last_ := last; proxy_stride_ := stride |}).

(** The cursors of [for (auto x : p)]. *)
Definition cursors (fuel : nat) (p : strided_proxy I)
    : option (list (strided_iterator I)) :=
  b <- begin_ p ;; e <- end_ p ;; traverse op_ne op_incr fuel b e.

(** The values of [for (auto x : p)]. *)
Definition elements (fuel : nat) (p : strided_proxy I) : option (list V) :=
  cs <- cursors fuel p ;; sequence (map op_deref cs).

End Strided.

(** [strided(content, stride)]. *)
Definition strided {V : Type} (content : list V) (stride : Z)
    : option (strided_proxy (vector_iterator V)) :=
  strided_range (std_begin content) (std_end content) stride.

(** The position in its sequence that a cursor over a [std::vector] is
    at. *)
Definition position {V : Type} (x : strided_iterator (vector_iterator V)) : Z :=
  idx (iterator_ x).

(** The cursor [i] steps of [stride] after the start of [content]. *)
Definition cursor_at {V : Type} (content : list V) (stride : Z) (i : nat)
    : strided_iterator (vector_iterator V) :=
  {| iterator_ := {| base := content; idx := Z.of_nat i * stride |};
     stride_ := stride |}.

End Strided.

(** ** [zip.hpp] *)

Module Zip.

Import Algorithm.

(** [iterators_], the tuple of the iterators held. *)
Definition zip_iterator (I : Type) : Type := list I.

Record zip_proxy (I : Type) := {
  first_ : zip_iterator I;
  last_ : zip_iterator I
}.
Arguments first_ {I} _.
Arguments last_ {I} _.

Section Zip.
Context {I V : Type} `{RandomAccessIterator I V}.

(** [operator++]. *)
Definition op_incr (it : zip_iterator I) : zip_iterator I :=
  fst (for_each it (fun iter (u : unit) => (it_plus iter 1, u)) tt).

(** [operator+=]. *)
Definition op_plus_assign (it : zip_iterator I) (inc : Z) : zip_iterator I :=
  fst (for_each it (fun iter (u : unit) => (it_plus iter inc, u)) tt).

(** [operator--]. *)
Definition op_decr (it : zip_iterator I) : zip_iterator I :=
  fst (for_each it (fun iter (u : unit) => (it_plus iter (-1), u)) tt).

(** [operator-=]. *)
Definition op_minus_assign (it : zip_iterator I) (inc : Z) : zip_iterator I :=
  fst (for_each it (fun iter (u : unit) => (it_plus iter (- inc), u)) tt).

(** [operator+(zip_iterator x, difference_type y)]. *)
Definition op_plus (x : zip_iterator I) (y : Z) : zip_iterator I :=
  op_plus_assign x y.

(** [operator[]]. *)
Definition op_index (it : zip_iterator I) (n : Z) : option (list V) :=
  refs <- transform it (fun iter => it_deref (it_plus iter n)) ;; sequence refs.

(** [operator*]. *)
Definition op_deref (it : zip_iterator I) : option (list V) :=
  refs <- transform it it_deref ;; sequence refs.

(** [operator==]. *)
Definition op_eq (x y : zip_iterator I) : option bool :=
  any_of2 x y (fun a b => it_eq a b).

(** [operator!=]. *)
Definition op_ne (x y : zip_iterator I) : option bool :=
  b <- op_eq x y ;; Some (negb b).

(** [operator<]. *)
Definition op_lt (x y : zip_iterator I) : option bool :=
  all_of2 x y (fun a b => it_lt a b).

(** [operator-]. *)
Definition op_minus (x y : zip_iterator I) : option Z :=
  diff_tuple <- transform2 x y (fun a b => it_minus a b) ;; min diff_tuple.

Definition begin_ (p : zip_proxy I) : zip_iterator I := first_ p.

Definition end_ (p : zip_proxy I) : zip_iterator I := last_ p.

(** The cursors of [for (auto t : p)]. *)
Definition cursors (fuel : nat) (p : zip_proxy I) : option (list (zip_iterator I)) :=
  traverse op_ne op_incr fuel (begin_ p) (end_ p).

(** The tuples of [for (auto t : p)]. *)
Definition elements (fuel : nat) (p : zip_proxy I) : option (list (list V)) :=
  cs <- cursors fuel p ;; sequence (map op_deref cs).

End Zip.

(** [zip(args...)]. *)
Definition zip {V : Type} (args : list (list V)) : zip_proxy (vector_iterator V) :=
  {| first_ := map std_begin args; last_ := map std_end args |}.

End Zip.

(** ** [helpers.hpp] *)

Module Helpers.

Section CheckSame.
Context {T : Type} (eqb : T -> T -> bool).

(** [std::equal(first1, last1, first2)]: the second sequence is read as
    far as the first one goes, up to the first difference; reading past
    its end is undefined. *)
Fixpoint std_equal (xs ys : list T) : option bool :=
  match xs with
  | [] => Some true
  | x :: xs' =>
      match ys with
      | [] => None
      | y :: ys' => if eqb x y then std_equal xs' ys' else Some false
      end
  end.

(** [check_same(x, y)]. *)
Definition check_same (x y : list T) : option bool := std_equal x y.

End CheckSame.

End Helpers.

(** ** [stop_watch.hpp] *)

Module StopWatch.

(** The clock is read where the code calls [clock::now()]: the reading
    is an argument of the operation, in ticks of the clock, and is used
    only on the path that makes the call.  Durations are in ticks too;
    the conversion of [elapsed_seconds] to seconds in [double] is left
    out. *)
Record watch := {
  start_ : Z;
  duration_ : Z;
  is_running_ : bool
}.

(** [StopWatch()]. *)
Definition make : watch :=
  {| start_ := 0; duration_ := 0; is_running_ := false |}.

(** [is_running]. *)
Definition is_running (w : watch) : bool := is_running_ w.

(** [start]. *)
Definition start (w : watch) (now : Z) : watch :=
  if negb (is_running w)
  then {| start_ := now; duration_ := duration_ w; is_running_ := true |}
  else w.

(** [stop]. *)
Definition stop (w : watch) (now : Z) : watch :=
  if is_running w
  then {| start_ := start_ w;
          duration_ := duration_ w + (now - start_ w);
          is_running_ := false |}
  else w.

(** [reset]. *)
Definition reset (w : watch) (now : Z) : watch :=
  let w := stop w now in
  {| start_ := start_ w; duration_ := 0; is_running_ := is_running_ w |}.

(** [restart]: the clock is read in [stop], if the watch runs, and then
    in [start]. *)
Definition restart (w : watch) (now1 now2 : Z) : watch :=
  let w := stop w now1 in
  let w := reset w now1 in
  start w now2.

(** [touch_]. *)
Definition touch_ (w : watch) (now : Z) : watch :=
  let tm := now in
  {| start_ := tm;
     duration_ := duration_ w + (tm - start_ w);
     is_running_ := is_running_ w |}.

(** [elapsed_seconds], in ticks: the watch after the call and the
    duration returned. *)
Definition elapsed (w : watch) (now : Z) : watch * Z :=
  let w := if is_running w then touch_ w now else w in
  (w, duration_ w).

End StopWatch.

(** * Properties *)

(** ** Option combinators and lists *)

Lemma sequence_map_seq {A : Type} (g : nat -> option A) (l : list A) (s : nat) :
  (forall i, (i < length l)%nat -> g (s + i)%nat = nth_error l i) ->
  sequence (map g (seq s (length l))) = Some l.
Proof.
  revert s; induction l as [|a l IH]; intros s Hg; simpl; [reflexivity|].
  specialize (Hg 0%nat ltac:(simpl; lia)) as H0.
  rewrite Nat.add_0_r in H0; rewrite H0; simpl.
  rewrite IH; [reflexivity|].
  intros i Hi. specialize (Hg (S i) ltac:(simpl; lia)).
  now rewrite Nat.add_succ_r in Hg.
Qed.

Lemma nth_error_map2 {A B C : Type} (f : A -> B -> C) (t1 : list A) (t2 : list B) (i : nat) :
  nth_error (map (fun ab => f (fst ab) (snd ab)) (combine t1 t2)) i =
  match nth_error t1 i, nth_error t2 i with
  | Some a, Some b => Some (f a b)
  | _, _ => None
  end.
Proof.
  revert t2 i; induction t1 as [|a t1 IH]; intros [|b t2] [|i]; simpl; try reflexivity.
  - now destruct (nth_error t1 i).
  - apply IH.
Qed.

Lemma length_map2 {A B C : Type} (f : A -> B -> C) (t1 : list A) (t2 : list B) :
  length (map (fun ab => f (fst ab) (snd ab)) (combine t1 t2)) =
  Nat.min (length t1) (length t2).
Proof. now rewrite length_map, length_combine. Qed.

Lemma map_seq_shift {A : Type} (f : nat -> A) (s n : nat) :
  map f (seq (S s) n) = map (fun i => f (S i)) (seq s n).
Proof. now rewrite <- seq_shift, map_map. Qed.

(** ** The tuple toolkit *)

Module AlgorithmSpec.

Import Algorithm.

(** The one-tuple [transform] applies the function at every index. *)
Lemma transform_map {T R : Type} (inputs : list T) (f : T -> R) :
  transform inputs f = Some (map f inputs).
Proof.
  unfold transform, transform_impl, make_index_sequence.
  rewrite <- (length_map f inputs).
  apply sequence_map_seq. intros i _; simpl.
  unfold get. rewrite nth_error_map.
  now destruct (nth_error inputs i).
Qed.

(** On tuples of one size the two-tuple [transform] applies the function
    at every index. *)
Lemma transform2_same_size {T1 T2 R : Type} (t1 : list T1) (t2 : list T2)
    (f : T1 -> T2 -> R) :
  length t1 = length t2 ->
  transform2 t1 t2 f = Some (map (fun ab => f (fst ab) (snd ab)) (combine t1 t2)).
Proof.
  intros Hlen. unfold transform2, transform_impl2, make_index_sequence, assert.
  rewrite (proj2 (Nat.eqb_eq _ _) Hlen).
  set (l := map _ (combine t1 t2)).
  assert (Hl : length l = length t1)
    by (unfold l; rewrite length_map2; lia).
  rewrite <- Hl. apply sequence_map_seq.
  intros i _; simpl. unfold l, get. rewrite nth_error_map2.
  destruct (nth_error t1 i); simpl; [|reflexivity].
  now destruct (nth_error t2 i).
Qed.

(** On tuples of different sizes the two-tuple [transform] is not
    instantiated. *)
Lemma transform2_other_size {T1 T2 R : Type} (t1 : list T1) (t2 : list T2)
    (f : T1 -> T2 -> R) :
  length t1 <> length t2 -> transform2 t1 t2 f = None.
Proof.
  intros Hlen. unfold transform2, transform_impl2, assert.
  now rewrite (proj2 (Nat.eqb_neq _ _) Hlen).
Qed.

Lemma any_of_id_nth (r : list bool) :
  any_of r (fun val => val) = true <-> exists i, nth_error r i = Some true.
Proof.
  unfold any_of. induction r as [|b r IH]; simpl.
  - split; [discriminate|]. intros [[|i] Hi]; discriminate.
  - rewrite orb_true_iff, IH. split.
    + intros [-> | [i Hi]]; [now exists 0%nat | now exists (S i)].
    + intros [[|i] Hi]; simpl in Hi; [left; congruence | right; now exists i].
Qed.

Lemma all_of_id_nth (r : list bool) :
  all_of r (fun val => val) = true <-> forall i b, nth_error r i = Some b -> b = true.
Proof.
  unfold all_of. induction r as [|b r IH]; simpl.
  - split; [|reflexivity]. intros _ [|i] b Hi; discriminate.
  - rewrite andb_true_iff, IH. split.
    + intros [-> Hr] [|i] c Hi; simpl in Hi; [congruence | eauto].
    + intros Hall. split; [apply (Hall 0%nat); reflexivity|].
      intros i c Hi. apply (Hall (S i)). exact Hi.
Qed.

Lemma fold_min_le (r : list Z) (x : Z) :
  let m := fold_left (fun m v => if v <? m then v else m) r x in
  m <= x /\ (forall v, In v r -> m <= v) /\ (m = x \/ In m r).
Proof.
  revert x; induction r as [|v r IH]; intros x; simpl.
  - repeat split; [lia | intros v [] | now left].
  - destruct (IH (if v <? x then v else x)) as (Hle & Hall & Hin).
    destruct (Z.ltb_spec v x) as [Hvx | Hvx].
    + repeat split; [lia | | ].
      * intros u [<- | Hu]; [lia | now apply Hall].
      * destruct Hin as [-> | Hin]; right; [now left | now right].
    + repeat split; [lia | | ].
      * intros u [<- | Hu]; [lia | now apply Hall].
      * destruct Hin as [-> | Hin]; [now left | right; now right].
Qed.

(** [min] of a tuple with an element is one of its elements and is below
    all of them. *)
Lemma min_least (t : list Z) :
  t <> [] ->
  exists m, min t = Some m /\ In m t /\ forall v, In v t -> m <= v.
Proof.
  destruct t as [|x r]; [congruence|]. intros _.
  destruct (fold_min_le r x) as (Hle & Hall & Hin).
  eexists; split; [reflexivity|]. split.
  - destruct Hin as [-> | Hin]; [now left | now right].
  - intros v [<- | Hv]; [exact Hle | now apply Hall].
Qed.

Section Perform.
Context {T W : Type} (index : nat) (action : T -> W -> T * W).

Lemma for_each_body_past (t : list T) (c : nat) (w : W) :
  (index < c)%nat ->
  for_each t (perform_lambda index action) (c, w) = (t, ((c + length t)%nat, w)).
Proof.
  revert c; induction t as [|x t IH]; intros c Hc; simpl.
  - now rewrite Nat.add_0_r.
  - destruct (Nat.eqb_spec index c) as [->|_]; [lia|].
    rewrite IH by lia. now rewrite Nat.add_succ_r.
Qed.

Lemma for_each_body_at (t : list T) (c k : nat) (w : W) :
  index = (c + k)%nat ->
  for_each t (perform_lambda index action) (c, w) =
  match nth_error t k with
  | Some v => let (v', w') := action v w in
              (replace_nth k v' t, ((c + length t)%nat, w'))
  | None => (t, ((c + length t)%nat, w))
  end.
Proof.
  revert c k; induction t as [|x t IH]; intros c k Hk; simpl.
  - rewrite Nat.add_0_r. now destruct k.
  - destruct k as [|k]; simpl.
    + destruct (Nat.eqb_spec index c) as [_|Hne]; [|lia].
      destruct (action x w) as [x' w'].
      rewrite for_each_body_past by lia.
      unfold replace_nth; simpl. now rewrite Nat.add_succ_r.
    + destruct (Nat.eqb_spec index c) as [Heq|_]; [lia|].
      rewrite (IH (S c) k) by lia.
      destruct (nth_error t k) as [v|].
      * destruct (action v w) as [v' w'].
        unfold replace_nth; simpl. now rewrite Nat.add_succ_r.
      * now rewrite Nat.add_succ_r.
Qed.

End Perform.

(** C8. [perform(t, k, a)] runs [a] once, on the element at position [k],
    when [k] is below the size of the tuple: its effect on the element
    and on what [a] acts on is that of the single call [a(t[k])]; it
    runs [a] on nothing when [k] is the size or more, and the tuple and
    what [a] acts on are left as they were.  With the action that records
    its argument, the record is [t[k]] alone, or is empty. *)
Theorem perform_once_or_never {T W : Type} (t : list T) (k : nat)
    (a : T -> W -> T * W) (w : W) :
  perform t k a w =
    match nth_error t k with
    | Some v => let (v', w') := a v w in (replace_nth k v' t, w')
    | None => (t, w)
    end
  /\ ((k < length t)%nat <-> exists v, nth_error t k = Some v)
  /\ snd (perform t k (fun v calls => (v, calls ++ [v])) []) =
     match nth_error t k with
     | Some v => [v]
     | None => []
     end.
Proof.
  assert (Hgen : forall (W' : Type) (a' : T -> W' -> T * W') (w' : W'),
    perform t k a' w' =
    match nth_error t k with
    | Some v => let (v', w'') := a' v w' in (replace_nth k v' t, w'')
    | None => (t, w')
    end).
  { intros W' a' w'. unfold perform.
    rewrite (for_each_body_at k a' t 0 k w' eq_refl).
    destruct (nth_error t k) as [v|]; [|reflexivity].
    now destruct (a' v w'). }
  split; [apply Hgen|]. split.
  - rewrite <- nth_error_Some. split.
    + intros Hk. destruct (nth_error t k) as [v|]; [now exists v | congruence].
    + intros [v ->]. discriminate.
  - rewrite Hgen. now destruct (nth_error t k).
Qed.

(** C7, at tuples of sizes 3 and 2: [transform(t1, t2, f)] does not give
    the tuple of size 2 of the [f(t1[i], t2[i])]: its index sequence is
    that of [t1] and the instantiation fails, in either order of the
    tuples; the two-tuple [for_each] beside it, which takes the smaller
    size, makes the two calls. *)
Theorem transform2_no_truncation :
  transform2 [1; 2; 3] [10; 20] Z.add = None
  /\ transform2 [10; 20] [1; 2; 3] Z.add = None
  /\ for_each2 [1; 2; 3] [10; 20] (fun a b calls => calls ++ [a + b]) [] =
     Some [11; 22].
Proof. repeat split. Qed.

End AlgorithmSpec.

(** ** The traversal loop *)

Section TraversalFacts.
Context {C : Type} (op_ne : C -> C -> option bool) (op_incr : C -> C).

(** A loop whose test holds at the first [n] cursors and fails at the
    next one runs its body at these [n] cursors, given fuel for [n + 1]
    tests. *)
Lemma traverse_steps (last : C) (n : nat) :
  forall (it : C) (fuel : nat),
    (n < fuel)%nat ->
    (forall i, (i < n)%nat -> op_ne (Nat.iter i op_incr it) last = Some true) ->
    op_ne (Nat.iter n op_incr it) last = Some false ->
    traverse op_ne op_incr fuel it last =
    Some (map (fun i => Nat.iter i op_incr it) (seq 0 n)).
Proof.
  induction n as [|n IH]; intros it fuel Hfuel Hgo Hstop.
  - destruct fuel as [|fuel]; [lia|]. simpl in *. now rewrite Hstop.
  - destruct fuel as [|fuel]; [lia|]. simpl.
    pose proof (Hgo 0%nat ltac:(lia)) as H0. simpl in H0. rewrite H0. simpl.
    rewrite (IH (op_incr it) fuel ltac:(lia)).
    + simpl. f_equal. f_equal. rewrite map_seq_shift.
      apply map_ext. intros i. simpl. now rewrite <- Nat.iter_succ_r.
    + intros i Hi. specialize (Hgo (S i) ltac:(lia)).
      now rewrite Nat.iter_succ_r in Hgo.
    + now rewrite Nat.iter_succ_r in Hstop.
Qed.

End TraversalFacts.

(** ** The range adaptor *)

Module RangeSpec.

Import Range.

Lemma iter_range_incr (i : nat) (v s : Z) :
  Nat.iter i op_incr {| value_ := v; step_ := s |} =
  {| value_ := v + Z.of_nat i * s; step_ := s |}.
Proof.
  induction i as [|i IH].
  - simpl. f_equal. lia.
  - rewrite Nat.iter_succ, IH. unfold op_incr; cbn [value_ step_]. f_equal. lia.
Qed.

(** What [operator==] computes on cursors of one step. *)
Lemma op_eq_same_step (x y : range_iterator) :
  step_ x = step_ y ->
  exists b, op_eq x y = Some b
    /\ (b = true <->
        (0 < step_ x /\ value_ y <= value_ x) \/
        (step_ x <= 0 /\ value_ x < value_ y)).
Proof.
  intros Hs. unfold op_eq, assert. rewrite (proj2 (Z.eqb_eq _ _) Hs).
  eexists; split; [reflexivity|].
  destruct (Z.gtb_spec (step_ x) 0) as [Hpos | Hneg].
  - rewrite orb_true_iff, Z.ltb_lt, Z.eqb_eq. lia.
  - rewrite Z.ltb_lt. lia.
Qed.

(** With a positive step, [a == b] is [b.value <= a.value]. *)
Lemma op_eq_positive_step (x y : range_iterator) :
  step_ x = step_ y -> 0 < step_ x ->
  op_eq x y = Some (value_ y <=? value_ x).
Proof.
  intros Hs Hpos. unfold op_eq, assert. rewrite (proj2 (Z.eqb_eq _ _) Hs).
  destruct (Z.gtb_spec (step_ x) 0) as [_ | Hneg]; [|lia].
  f_equal. destruct (Z.leb_spec (value_ y) (value_ x));
    destruct (Z.ltb_spec (value_ y) (value_ x));
    destruct (Z.eqb_spec (value_ y) (value_ x)); simpl; try reflexivity; lia.
Qed.

(** C2, at two cursors of step -1 and of value 0: [a == b] is false,
    though [a.value <= b.value]; with step 1 the same values compare
    equal.  A range of negative step so runs its body at [last] too. *)
Theorem op_eq_negative_step_same_value :
  let a := {| value_ := 0; step_ := -1 |} in
  let b := {| value_ := 0; step_ := -1 |} in
  op_eq a b = Some false
  /\ (step_ a < 0 /\ value_ a <= value_ b)
  /\ op_eq {| value_ := 0; step_ := 1 |} {| value_ := 0; step_ := 1 |} = Some true
  /\ elements 5 (range 3 0 (-1)) = Some [3; 2; 1; 0].
Proof. simpl. repeat split; try lia; discriminate. Qed.

Lemma ceil_div_bounds (a b : Z) :
  0 < b -> b * (ceil_div a b - 1) < a <= b * ceil_div a b.
Proof.
  intros Hb. unfold ceil_div.
  pose proof (Z.mul_div_le (a + b - 1) b Hb).
  pose proof (Z.mul_succ_div_gt (a + b - 1) b Hb).
  lia.
Qed.

End RangeSpec.

(** ** The strided adaptor *)

Lemma sequence_map_defined {A B : Type} (g : A -> option B) (xs : list A) :
  (forall x, In x xs -> g x <> None) ->
  exists l, sequence (map g xs) = Some l
    /\ length l = length xs
    /\ forall i x, nth_error xs i = Some x -> nth_error l i = g x.
Proof.
  induction xs as [|x xs IH]; intros Hg.
  - exists []. repeat split. intros [|i] x Hx; discriminate.
  - destruct IH as (l & Hl & Hlen & Hnth); [intros y Hy; apply Hg; now right|].
    destruct (g x) as [b|] eqn:Hx; [|exfalso; apply (Hg x); [now left | exact Hx]].
    exists (b :: l). simpl. rewrite Hx, Hl. simpl. repeat split.
    + now rewrite Hlen.
    + intros [|i] y Hy; simpl in *; [injection Hy as <-; now rewrite Hx | eauto].
Qed.

Module StridedSpec.

Import Strided.

Section OverVectors.
Context {V : Type}.

Lemma op_minus_position (x y : strided_iterator (vector_iterator V)) :
  stride_ x = stride_ y -> stride_ x <> 0 ->
  op_minus x y = Some (Z.quot (position x - position y) (stride_ x)).
Proof.
  intros Hs Hnz. unfold op_minus, assert.
  now rewrite (proj2 (Z.eqb_eq _ _) Hs), (proj2 (Z.eqb_neq _ _) Hnz).
Qed.

Lemma op_eq_position (x y : strided_iterator (vector_iterator V)) :
  stride_ x = stride_ y -> stride_ x <> 0 ->
  op_eq x y = Some (Z.quot (position x - position y) (stride_ x) =? 0).
Proof.
  intros Hs Hnz. unfold op_eq. rewrite op_minus_position by assumption.
  unfold assert. now rewrite (proj2 (Z.eqb_eq _ _) Hs).
Qed.

Lemma op_ne_position (x y : strided_iterator (vector_iterator V)) :
  stride_ x = stride_ y -> stride_ x <> 0 ->
  op_ne x y = Some (negb (Z.quot (position x - position y) (stride_ x) =? 0)).
Proof.
  intros Hs Hnz. unfold op_ne. rewrite op_eq_position by assumption.
  unfold assert. now rewrite (proj2 (Z.eqb_eq _ _) Hs).
Qed.

Lemma op_lt_position (x y : strided_iterator (vector_iterator V)) :
  stride_ x = stride_ y -> stride_ x <> 0 ->
  op_lt x y = Some (Z.quot (position y - position x) (stride_ x) >? 0).
Proof.
  intros Hs Hnz. unfold op_lt, assert.
  now rewrite (proj2 (Z.eqb_eq _ _) Hs), (proj2 (Z.eqb_neq _ _) Hnz).
Qed.

Lemma iter_strided_incr (i : nat) (content : list V) (p stride : Z) :
  Nat.iter i op_incr
    {| iterator_ := {| base := content; idx := p |}; stride_ := stride |} =
  {| iterator_ := {| base := content; idx := p + Z.of_nat i * stride |};
     stride_ := stride |}.
Proof.
  induction i as [|i IH].
  - simpl. do 2 f_equal. lia.
  - rewrite Nat.iter_succ, IH. unfold op_incr, advance.
    cbn [iterator_ stride_ it_plus vector_iterator_ops base idx].
    do 2 f_equal. lia.
Qed.

(** The cursors of a strided view of a whole sequence, the stride
    positive. *)
Lemma cursors_positive_stride (content : list V) (stride : Z) (fuel : nat) :
  0 < stride ->
  let n := Z.to_nat (Z.quot (Z.of_nat (length content)) stride) in
  (n < fuel)%nat ->
  cursors fuel
    {| first_ := std_begin content; last_ := std_end content;
       proxy_stride_ := stride |} =
  Some (map (cursor_at content stride) (seq 0 n)).
Proof.
  intros Hstride n Hfuel.
  set (L := Z.of_nat (length content)) in *.
  assert (HL : 0 <= L) by (unfold L; lia).
  assert (Hq : Z.quot L stride = L / stride) by (apply Z.quot_div_nonneg; lia).
  pose proof (Z.mul_div_le L stride Hstride) as Hlo.
  pose proof (Z.mul_succ_div_gt L stride Hstride) as Hhi.
  assert (Hn : Z.of_nat n = L / stride).
  { unfold n. rewrite Hq. apply Z2Nat.id. apply Z.div_pos; lia. }
  unfold cursors, begin_, end_, make, assert, std_begin, std_end.
  cbn [first_ last_ proxy_stride_].
  rewrite (proj2 (Z.eqb_neq _ _) (Z.neq_sym _ _ (Z.lt_neq _ _ Hstride))).
  cbn [negb bind]. fold L.
  rewrite (traverse_steps op_ne op_incr _ n _ fuel Hfuel).
  - f_equal. apply map_ext. intros i. rewrite iter_strided_incr. reflexivity.
  - intros i Hi. rewrite iter_strided_incr, op_ne_position by (simpl; lia).
    unfold position; simpl. f_equal.
    destruct (Z.eqb_spec (Z.quot (Z.of_nat i * stride - L) stride) 0) as [H0|]; [|reflexivity].
    apply Z.quot_small_iff in H0; [|lia]. nia.
  - rewrite iter_strided_incr, op_ne_position by (simpl; lia).
    unfold position; simpl. f_equal.
    destruct (Z.eqb_spec (Z.quot (Z.of_nat n * stride - L) stride) 0) as [|H0]; [reflexivity|].
    exfalso. apply H0. apply Z.quot_small_iff; [lia|]. nia.
Qed.

Lemma op_deref_cursor_at (content : list V) (stride : Z) (i : nat) :
  0 < stride ->
  Z.of_nat i * stride < Z.of_nat (length content) ->
  op_deref (cursor_at content stride i) = nth_error content (i * Z.to_nat stride)
  /\ op_deref (cursor_at content stride i) <> None.
Proof.
  intros Hstride Hin. unfold op_deref, cursor_at; simpl. unfold vector_deref; simpl.
  destruct (Z.leb_spec 0 (Z.of_nat i * stride)); [|nia].
  destruct (Z.ltb_spec (Z.of_nat i * stride) (Z.of_nat (length content))); [|lia].
  simpl. rewrite Z2Nat.inj_mul, Nat2Z.id by lia. split; [reflexivity|].
  apply nth_error_Some. nia.
Qed.

(** C4. For a sequence of length [L] and a positive stride,
    [strided(seq, stride).size()] is [L / stride], truncated; the loop
    over the view ends and runs its body at that many cursors, the
    [i]-th at position [i * stride] of the sequence, whose element it
    yields; every position it visits is below [stride * (L / stride)],
    the last full multiple of the stride. *)
Theorem strided_size_law (content : list V) (stride : Z) (fuel : nat) :
  0 < stride ->
  let L := Z.of_nat (length content) in
  let n := Z.to_nat (Z.quot L stride) in
  (n < fuel)%nat ->
  exists p,
    strided content stride = Some p
    /\ size p = Some (Z.quot L stride)
    /\ cursors fuel p = Some (map (cursor_at content stride) (seq 0 n))
    /\ (exists l, elements fuel p = Some l
          /\ length l = n
          /\ forall i, (i < n)%nat ->
               nth_error l i = nth_error content (i * Z.to_nat stride)
               /\ nth_error l i <> None)
    /\ (forall i, (i < n)%nat ->
          position (cursor_at content stride i) < stride * Z.quot L stride)
    /\ stride * Z.quot L stride <= L.
Proof.
  intros Hstride L n Hfuel.
  assert (HL : 0 <= L) by (unfold L; lia).
  assert (Hq : Z.quot L stride = L / stride) by (apply Z.quot_div_nonneg; lia).
  pose proof (Z.mul_div_le L stride Hstride) as Hlo.
  assert (Hn : Z.of_nat n = L / stride).
  { unfold n. rewrite Hq. apply Z2Nat.id. apply Z.div_pos; lia. }
  assert (Hnz : (stride =? 0) = false) by (apply Z.eqb_neq; lia).
  eexists. split; [|split; [|split; [|split; [|split]]]].
  - unfold strided, strided_range, assert. rewrite Hnz. reflexivity.
  - unfold size, assert, distance. cbn [proxy_stride_ first_ last_].
    rewrite Hnz. cbn [negb]. simpl. now rewrite Z.sub_0_r.
  - now apply cursors_positive_stride.
  - unfold elements. rewrite cursors_positive_stride by assumption. cbn [bind].
    destruct (sequence_map_defined op_deref
                (map (cursor_at content stride) (seq 0 n))) as (l & Hl & Hlen & Hnth).
    + intros x Hx. apply in_map_iff in Hx as (i & <- & Hi). apply in_seq in Hi.
      apply op_deref_cursor_at; [assumption|]. fold L. nia.
    + exists l. split; [exact Hl|]. rewrite length_map, length_seq in Hlen.
      split; [exact Hlen|]. intros i Hi.
      rewrite (Hnth i (cursor_at content stride i)).
      * apply op_deref_cursor_at; [assumption|]. fold L. nia.
      * rewrite nth_error_map, nth_error_seq.
        destruct (Nat.ltb_spec i n); [reflexivity | lia].
  - intros i Hi. unfold position, cursor_at; simpl. rewrite Hq. nia.
  - rewrite Hq. lia.
Qed.

(** C9. On two cursors of one stride [s], not zero, [x == y] is whether
    the quotient of the distance of their positions by [s], truncated,
    is zero; so two cursors less than [|s|] apart compare equal, be
    their positions different or not, and neither is [<] the other. *)
Theorem strided_equality_coarse (x y : strided_iterator (vector_iterator V)) :
  stride_ x = stride_ y -> stride_ x <> 0 ->
  op_eq x y = Some (Z.quot (position x - position y) (stride_ x) =? 0)
  /\ (Z.abs (position x - position y) < Z.abs (stride_ x) ->
      op_eq x y = Some true /\ op_lt x y = Some false /\ op_lt y x = Some false).
Proof.
  intros Hs Hnz. split; [now apply op_eq_position|].
  intros Hnear.
  assert (Hxy : Z.quot (position x - position y) (stride_ x) = 0)
    by (apply Z.quot_small_iff; assumption).
  assert (Hyx : Z.quot (position y - position x) (stride_ x) = 0)
    by (apply Z.quot_small_iff; [assumption | lia]).
  rewrite op_eq_position, op_lt_position by assumption.
  rewrite (op_lt_position y x) by congruence.
  rewrite <- Hs, Hxy, Hyx. repeat split.
Qed.

End OverVectors.

Lemma strided_size_law_witness :
  exists p, strided [1; 2; 3; 4; 5; 6; 7] 3 = Some p
    /\ size p = Some 2
    /\ exists l, elements 3 p = Some l /\ length l = 2%nat.
Proof.
  destruct (strided_size_law [1; 2; 3; 4; 5; 6; 7] 3 3)
    as (p & Hp & Hsize & _ & (l & Hl & Hlen & _) & _); [lia | vm_compute; lia |].
  exists p. split; [exact Hp|]. split; [exact Hsize|].
  exists l. split; [exact Hl | exact Hlen].
Defined.

Lemma strided_equality_coarse_witness :
  let x := {| iterator_ := std_begin [1; 2; 3; 4; 5]; stride_ := 2 |} in
  let y := {| iterator_ := {| base := [1; 2; 3; 4; 5]; idx := 1 |}; stride_ := 2 |} in
  op_eq x y = Some true /\ op_lt x y = Some false /\ op_lt y x = Some false.
Proof.
  intros x y.
  destruct (strided_equality_coarse x y) as [_ Hnear]; [reflexivity | simpl; lia |].
  apply Hnear. vm_compute. reflexivity.
Defined.

End StridedSpec.

(** ** The zip adaptor *)

Module ZipSpec.

Import Algorithm Zip.

Section Cursors.
Context {I V : Type} `{RandomAccessIterator I V}.

Lemma op_eq_same_types (x y : zip_iterator I) :
  length x = length y ->
  op_eq x y =
  Some (any_of (map (fun ab => it_eq (fst ab) (snd ab)) (combine x y)) (fun val => val)).
Proof.
  intros Hlen. unfold op_eq, any_of2.
  now rewrite AlgorithmSpec.transform2_same_size.
Qed.

Lemma op_eq_any_component (x y : zip_iterator I) :
  length x = length y ->
  exists r, op_eq x y = Some r
    /\ (r = true <->
        exists i a b, nth_error x i = Some a /\ nth_error y i = Some b
                      /\ it_eq a b = true).
Proof.
  intros Hlen. rewrite op_eq_same_types by assumption.
  eexists; split; [reflexivity|].
  rewrite AlgorithmSpec.any_of_id_nth. split.
  - intros [i Hi]. rewrite nth_error_map2 in Hi.
    destruct (nth_error x i) as [a|] eqn:Ha; [|discriminate].
    destruct (nth_error y i) as [b|] eqn:Hb; [|discriminate].
    exists i, a, b. repeat split; congruence.
  - intros (i & a & b & Ha & Hb & Hab). exists i.
    now rewrite nth_error_map2, Ha, Hb, Hab.
Qed.

(** C6. On zip cursors over the same iterator types, [x < y] is whether
    every two iterators [a], [b] at one index have [a < b]. *)
Theorem zip_order_universal (x y : zip_iterator I) :
  length x = length y ->
  exists r, op_lt x y = Some r
    /\ (r = true <->
        forall i a b, nth_error x i = Some a -> nth_error y i = Some b ->
                      it_lt a b = true).
Proof.
  intros Hlen. unfold op_lt, all_of2.
  rewrite AlgorithmSpec.transform2_same_size by assumption.
  eexists; split; [reflexivity|].
  rewrite AlgorithmSpec.all_of_id_nth. split.
  - intros Hall i a b Ha Hb. apply (Hall i).
    now rewrite nth_error_map2, Ha, Hb.
  - intros Hall i c Hi. rewrite nth_error_map2 in Hi.
    destruct (nth_error x i) as [a|] eqn:Ha; [|discriminate].
    destruct (nth_error y i) as [b|] eqn:Hb; [|discriminate].
    injection Hi as <-. now apply (Hall i).
Qed.

(** C5. On zip cursors over the same iterator types, one at least,
    [x - y] is the least of the [a - b] of the iterators [a], [b] at one
    index: it is one of them and is below all of them. *)
Theorem zip_distance_minimum (x y : zip_iterator I) :
  length x = length y -> x <> [] ->
  exists d, op_minus x y = Some d
    /\ (exists i a b, nth_error x i = Some a /\ nth_error y i = Some b
                      /\ d = it_minus a b)
    /\ (forall i a b, nth_error x i = Some a -> nth_error y i = Some b ->
                      d <= it_minus a b).
Proof.
  intros Hlen Hne. unfold op_minus.
  rewrite AlgorithmSpec.transform2_same_size by assumption. cbn [bind].
  set (diff_tuple := map _ (combine x y)).
  destruct (AlgorithmSpec.min_least diff_tuple) as (d & Hd & Hin & Hleast).
  { intros Hnil. apply (f_equal (@length Z)) in Hnil.
    unfold diff_tuple in Hnil. rewrite length_map2, <- Hlen, Nat.min_id in Hnil.
    destruct x; [congruence | discriminate]. }
  exists d. split; [exact Hd|]. split.
  - apply In_nth_error in Hin as [i Hi]. unfold diff_tuple in Hi.
    rewrite nth_error_map2 in Hi.
    destruct (nth_error x i) as [a|] eqn:Ha; [|discriminate].
    destruct (nth_error y i) as [b|] eqn:Hb; [|discriminate].
    exists i, a, b. repeat split; congruence.
  - intros i a b Ha Hb. apply Hleast. apply (nth_error_In _ i).
    unfold diff_tuple. now rewrite nth_error_map2, Ha, Hb.
Qed.

End Cursors.

(** C1. Two zip cursors over the same iterator types compare equal if
    and only if two of their iterators at one index do; so the loop over
    [zip(A, B)], [A] of length 5 and [B] of length 3, ends, and runs its
    body at three cursors, on the first three positions of [A] and of
    [B], whose elements it yields in pairs: positions 3 and 4 of [A] are
    not visited. *)
Theorem zip_shortest_wins {I V : Type} `{RandomAccessIterator I V}
    (x y : zip_iterator I) (A B : list V) (fuel : nat) :
  length x = length y ->
  length A = 5%nat -> length B = 3%nat -> (3 < fuel)%nat ->
  (exists r, op_eq x y = Some r
     /\ (r = true <->
         exists i a b, nth_error x i = Some a /\ nth_error y i = Some b
                       /\ it_eq a b = true))
  /\ cursors fuel (zip [A; B]) =
     Some (map (fun i => [ {| base := A; idx := Z.of_nat i |};
                           {| base := B; idx := Z.of_nat i |} ]) (seq 0 3))
  /\ elements fuel (zip [A; B]) =
     Some (map (fun ab => [fst ab; snd ab]) (combine (firstn 3 A) B))
  /\ length (combine (firstn 3 A) B) = 3%nat.
Proof.
  intros Hlen HA HB Hfuel. split; [now apply op_eq_any_component|].
  destruct A as [|a0 [|a1 [|a2 [|a3 [|a4 [|]]]]]]; try discriminate.
  destruct B as [|b0 [|b1 [|b2 [|]]]]; try discriminate.
  do 4 (destruct fuel as [|fuel]; [lia|]).
  repeat split.
Qed.

Lemma zip_shortest_wins_witness :
  op_eq (map std_begin [[1; 2; 3; 4; 5]; [10; 20; 30]])
        (map std_end [[1; 2; 3; 4; 5]; [10; 20; 30]]) = Some false
  /\ elements 4 (zip [[1; 2; 3; 4; 5]; [10; 20; 30]]) =
     Some [[1; 10]; [2; 20]; [3; 30]].
Proof.
  destruct (zip_shortest_wins
              (map std_begin [[1; 2; 3; 4; 5]; [10; 20; 30]])
              (map std_end [[1; 2; 3; 4; 5]; [10; 20; 30]])
              [1; 2; 3; 4; 5] [10; 20; 30] 4)
    as (_ & _ & Hel & _); try reflexivity; try lia.
  split; [reflexivity | exact Hel].
Defined.

Lemma zip_order_universal_witness :
  let x := map std_begin [[1; 2; 3; 4; 5]; [10; 20; 30]] in
  let y := map std_end [[1; 2; 3; 4; 5]; [10; 20; 30]] in
  length x = length y
  /\ exists r, op_lt x y = Some r
       /\ (r = true <->
           forall i a b, nth_error x i = Some a -> nth_error y i = Some b ->
                         it_lt a b = true).
Proof.
  intros x y. split; [reflexivity|].
  apply (zip_order_universal x y). reflexivity.
Defined.

Lemma zip_distance_minimum_witness :
  exists d,
    op_minus (map std_end [[1; 2; 3; 4; 5]; [10; 20; 30]])
             (map std_begin [[1; 2; 3; 4; 5]; [10; 20; 30]]) = Some d
    /\ d <= 5 /\ d <= 3.
Proof.
  destruct (zip_distance_minimum
              (map std_end [[1; 2; 3; 4; 5]; [10; 20; 30]])
              (map std_begin [[1; 2; 3; 4; 5]; [10; 20; 30]]) eq_refl)
    as (d & Hd & _ & Hleast); [discriminate|].
  exists d. split; [exact Hd|]. split.
  - apply (Hleast 0%nat (std_end [1; 2; 3; 4; 5]) (std_begin [1; 2; 3; 4; 5]));
      reflexivity.
  - apply (Hleast 1%nat (std_end [10; 20; 30]) (std_begin [10; 20; 30]));
      reflexivity.
Defined.

End ZipSpec.

(** ** More of the tuple toolkit *)

Module ToolkitSpec.

Import Algorithm.

(** [transform(t, f)] gives a tuple of the size of [t], with [f(t[i])] at
    each index [i]; with the identity it gives [t] back. *)
Theorem transform_elementwise {T R : Type} (t : list T) (f : T -> R) :
  exists r, transform t f = Some r
    /\ length r = length t
    /\ (forall i, nth_error r i = option_map f (nth_error t i))
    /\ transform t (fun x => x) = Some t.
Proof.
  exists (map f t). split; [apply AlgorithmSpec.transform_map|].
  split; [apply length_map|]. split.
  - intros i. apply nth_error_map.
  - rewrite AlgorithmSpec.transform_map. now rewrite map_id.
Qed.

(** [transform(t1, t2, f)] is instantiated on tuples of one size only, and
    then has [f(t1[i], t2[i])] at each index [i]. *)
Theorem transform2_elementwise {T1 T2 R : Type} (t1 : list T1) (t2 : list T2)
    (f : T1 -> T2 -> R) :
  transform2 t1 t2 f =
    (if Nat.eqb (length t1) (length t2)
     then Some (map (fun ab => f (fst ab) (snd ab)) (combine t1 t2))
     else None)
  /\ (forall r, transform2 t1 t2 f = Some r ->
        length r = length t1 /\ length r = length t2
        /\ forall i, nth_error r i =
             match nth_error t1 i, nth_error t2 i with
             | Some a, Some b => Some (f a b)
             | _, _ => None
             end).
Proof.
  assert (Heq : transform2 t1 t2 f =
    if Nat.eqb (length t1) (length t2)
    then Some (map (fun ab => f (fst ab) (snd ab)) (combine t1 t2))
    else None).
  { destruct (Nat.eqb_spec (length t1) (length t2)) as [Hlen | Hlen].
    - now apply AlgorithmSpec.transform2_same_size.
    - now apply AlgorithmSpec.transform2_other_size. }
  split; [exact Heq|]. intros r Hr. rewrite Heq in Hr.
  destruct (Nat.eqb_spec (length t1) (length t2)) as [Hlen | Hlen]; [|discriminate].
  injection Hr as <-. rewrite length_map2, <- Hlen, Nat.min_id.
  repeat split. intros i. apply nth_error_map2.
Qed.

Lemma for_each_app {T St : Type} (t1 t2 : list T) (p : T -> St -> T * St) (s : St) :
  for_each (t1 ++ t2) p s =
  (fst (for_each t1 p s) ++ fst (for_each t2 p (snd (for_each t1 p s))),
   snd (for_each t2 p (snd (for_each t1 p s)))).
Proof.
  revert s; induction t1 as [|x t1 IH]; intros s; simpl.
  - now destruct (for_each t2 p s).
  - destruct (p x s) as [x' s1]. rewrite IH.
    destruct (for_each t1 p s1) as [r1 s2]; simpl.
    reflexivity.
Qed.

(** [for_each(t, p)] calls [p] on every element of [t] once, from the
    first to the last: a [p] that records its argument records [t].  It
    keeps the size of the tuple whatever [p] does, and on [t1 ++ t2] it
    goes through [t1], then through [t2] from the state [t1] left. *)
Theorem for_each_in_order {T St : Type} (t t' : list T) (p : T -> St -> T * St)
    (s : St) (calls : list T) :
  snd (for_each t (fun v calls => (v, calls ++ [v])) calls) = calls ++ t
  /\ length (fst (for_each t p s)) = length t
  /\ for_each (t ++ t') p s =
     (fst (for_each t p s) ++ fst (for_each t' p (snd (for_each t p s))),
      snd (for_each t' p (snd (for_each t p s)))).
Proof.
  split; [|split].
  - revert calls; induction t as [|x t IH]; intros calls; simpl.
    + now rewrite app_nil_r.
    + specialize (IH (calls ++ [x])).
      destruct (for_each t _ (calls ++ [x])) as [r c]; simpl in *.
      now rewrite IH, <- app_assoc.
  - revert s; induction t as [|x t IH]; intros s; simpl; [reflexivity|].
    destruct (p x s) as [x' s1]. specialize (IH s1).
    destruct (for_each t p s1) as [r s2]; simpl in *. now rewrite IH.
  - apply for_each_app.
Qed.

Lemma for_each_impl2_shift {T1 T2 St : Type} (a : T1) (t1 : list T1) (b : T2)
    (t2 : list T2) (f : T1 -> T2 -> St -> St) (Is : list nat) (acc : option St) :
  fold_left
    (fun acc I => s <- acc ;; x <- get I (a :: t1) ;; y <- get I (b :: t2) ;;
                  Some (f x y s))
    (map S Is) acc =
  fold_left
    (fun acc I => s <- acc ;; x <- get I t1 ;; y <- get I t2 ;; Some (f x y s))
    Is acc.
Proof.
  revert acc; induction Is as [|I Is IH]; intros acc; simpl; [reflexivity|].
  apply IH.
Qed.

(** The two-tuple [for_each(t1, t2, f)] calls [f(t1[i], t2[i])] for the
    indices [i] below the smaller of the two sizes, in their order, and
    is instantiated whatever the sizes: the longer tuple is cut. *)
Theorem for_each2_truncates {T1 T2 St : Type} (t1 : list T1) (t2 : list T2)
    (f : T1 -> T2 -> St -> St) (s : St) :
  for_each2 t1 t2 f s =
    Some (fold_left (fun s ab => f (fst ab) (snd ab) s) (combine t1 t2) s)
  /\ for_each2 t1 t2 (fun a b calls => calls ++ [(a, b)]) [] =
     Some (combine t1 t2)
  /\ length (combine t1 t2) = Nat.min (length t1) (length t2).
Proof.
  assert (Hgen : forall (St' : Type) (g : T1 -> T2 -> St' -> St') (s' : St'),
    for_each2 t1 t2 g s' =
    Some (fold_left (fun s ab => g (fst ab) (snd ab) s) (combine t1 t2) s')).
  { intros St' g. unfold for_each2, for_each_impl2, make_index_sequence.
    revert t2; induction t1 as [|a t1 IH]; intros [|b t2] s'; simpl; try reflexivity.
    rewrite <- seq_shift, for_each_impl2_shift. apply IH. }
  split; [apply Hgen|]. split; [|apply length_combine].
  rewrite Hgen. f_equal.
  assert (Hlog : forall (l : list (T1 * T2)) calls,
    fold_left (fun s ab => s ++ [(fst ab, snd ab)]) l calls = calls ++ l).
  { induction l as [|[a b] l IHl]; intros calls; simpl.
    - now rewrite app_nil_r.
    - now rewrite IHl, <- app_assoc. }
  apply Hlog.
Qed.

Lemma count_if_from {T : Type} (t : list T) (p : T -> bool) (c : nat) :
  snd (for_each t (fun value count => (value, if p value then S count else count)) c) =
  (c + length (filter p t))%nat.
Proof.
  revert c; induction t as [|x t IH]; intros c; simpl; [lia|].
  specialize (IH (if p x then S c else c)).
  destruct (for_each t _ (if p x then S c else c)) as [r n]; simpl in *.
  rewrite IH. destruct (p x); simpl; lia.
Qed.

(** [count_if(t, p)] is the number of the elements of [t] that [p]
    holds on, at most the size of [t]; it is that size only if [p] holds
    on all of them, and zero only if it holds on none. *)
Theorem count_if_counts {T : Type} (t : list T) (p : T -> bool) :
  count_if t p = length (filter p t)
  /\ (count_if t p <= length t)%nat
  /\ (count_if t p = length t <-> all_of t p = true)
  /\ (count_if t p = 0%nat <-> none_of t p = true).
Proof.
  assert (Hc : count_if t p = length (filter p t))
    by (unfold count_if; now rewrite count_if_from).
  rewrite Hc. clear Hc. split; [reflexivity|]. unfold all_of, none_of.
  induction t as [|x t (Hle & Hall & Hnone)]; simpl.
  - repeat split; lia.
  - destruct (p x); simpl.
    + repeat split; try lia; try discriminate.
      * intros Heq. apply Hall. lia.
      * intros Heq. apply Hall in Heq. lia.
    + repeat split; try lia; try discriminate; try tauto.
Qed.

Section FindIf.
Context {T : Type} (p : T -> bool).

Lemma find_if_found (t : list T) (d c : nat) :
  index (snd (for_each t
    (fun value s =>
       (value,
        if negb (found s) && p value
        then {| index := current_index s; current_index := S (current_index s);
                found := true |}
        else {| index := index s; current_index := S (current_index s);
                found := found s |}))
    {| index := d; current_index := c; found := true |})) = d.
Proof.
  revert c; induction t as [|x t IH]; intros c; simpl; [reflexivity|].
  specialize (IH (S c)).
  destruct (for_each t _ _) as [r s]. exact IH.
Qed.

Lemma find_if_from (t : list T) (d c : nat) :
  let k := index (snd (for_each t
    (fun value s =>
       (value,
        if negb (found s) && p value
        then {| index := current_index s; current_index := S (current_index s);
                found := true |}
        else {| index := index s; current_index := S (current_index s);
                found := found s |}))
    {| index := d; current_index := c; found := false |})) in
  (k = d /\ forall x, In x t -> p x = false)
  \/ (exists j x, k = (c + j)%nat /\ nth_error t j = Some x /\ p x = true
        /\ forall i y, (i < j)%nat -> nth_error t i = Some y -> p y = false).
Proof.
  revert c; induction t as [|x t IH]; intros c; simpl.
  - left. split; [reflexivity | intros x []].
  - destruct (p x) eqn:Hpx; simpl.
    + right. exists 0%nat, x. pose proof (find_if_found t c (S c)) as Hf.
      destruct (for_each t _ _) as [r s]; simpl in *.
      repeat split; [lia | assumption | intros i y Hi; lia].
    + specialize (IH (S c)).
      destruct (for_each t _ _) as [r s]; simpl in *.
      destruct IH as [[Hk Hnone] | (j & y & Hk & Hj & Hy & Hbefore)].
      * left. split; [exact Hk|]. intros z [<- | Hz]; [exact Hpx | now apply Hnone].
      * right. exists (S j), y. repeat split; [lia | exact Hj | exact Hy |].
        intros [|i] z Hi Hz; simpl in Hz; [congruence|]. apply (Hbefore i); [lia | exact Hz].
Qed.

(** [find_if(t, p)] is the index of the first element of [t] that [p]
    holds on; it is the size of [t], which is no index of [t], exactly
    when [p] holds on no element. *)
Theorem find_if_first (t : list T) :
  let k := find_if t p in
  (k <= length t)%nat
  /\ (forall j x, (j < k)%nat -> nth_error t j = Some x -> p x = false)
  /\ match nth_error t k with
     | Some x => p x = true
     | None => k = length t
     end
  /\ (k = length t <-> none_of t p = true).
Proof.
  intros k. unfold k, find_if.
  assert (Hnone : none_of t p = true <-> forall x, In x t -> p x = false).
  { unfold none_of. rewrite negb_true_iff. induction t as [|x t' IH]; simpl.
    - split; [intros _ x [] | reflexivity].
    - rewrite orb_false_iff, IH. split.
      + intros [Hx Ht] z [<- | Hz]; auto.
      + intros Hall. split; [apply Hall; now left | intros z Hz; apply Hall; now right]. }
  destruct (find_if_from t (length t) 0) as [[Hk Hall] | (j & x & Hk & Hj & Hx & Hbefore)].
  - rewrite Hk. repeat split.
    + lia.
    + intros j x _ Hjx. apply Hall. now apply (nth_error_In _ j).
    + now rewrite (proj2 (nth_error_None t (length t)) (Nat.le_refl _)).
    + intros _. now apply Hnone.
  - rewrite Hk. simpl Nat.add.
    assert (Hlt : (j < length t)%nat) by (apply nth_error_Some; congruence).
    repeat split.
    + lia.
    + exact Hbefore.
    + now rewrite Hj.
    + lia.
    + intros Hn. rewrite Hnone in Hn. rewrite (Hn x) in Hx; [discriminate|].
      now apply (nth_error_In _ j).
Qed.

End FindIf.

(** The quantifiers on one tuple: [all_of] holds if [p] holds on every
    element, [any_of] if on some element, [none_of] if on none; on the
    empty tuple they are true, false and true; [none_of] is the negation
    of [any_of], and [all_of] on [p] is [none_of] on its negation. *)
Theorem quantifiers_on_tuple {T : Type} (t : list T) (p : T -> bool) :
  (all_of t p = true <-> forall x, In x t -> p x = true)
  /\ (any_of t p = true <-> exists x, In x t /\ p x = true)
  /\ (none_of t p = true <-> forall x, In x t -> p x = false)
  /\ none_of t p = negb (any_of t p)
  /\ all_of t p = none_of t (fun x => negb (p x)).
Proof.
  assert (Hany : any_of t p = true <-> exists x, In x t /\ p x = true).
  { unfold any_of. induction t as [|x t IH]; simpl.
    - split; [discriminate | intros (x & [] & _)].
    - rewrite orb_true_iff, IH. split.
      + intros [Hx | (z & Hz & Hpz)]; [exists x; auto | exists z; auto].
      + intros (z & [<- | Hz] & Hpz); [now left | right; now exists z]. }
  split; [|split; [exact Hany|split; [|split]]].
  - unfold all_of. clear Hany. induction t as [|x t IH]; simpl.
    + split; [intros _ x [] | reflexivity].
    + rewrite andb_true_iff, IH. split.
      * intros [Hx Ht] z [<- | Hz]; auto.
      * intros Hall. split; [apply Hall; now left | intros z Hz; apply Hall; now right].
  - change (none_of t p) with (negb (any_of t p)).
    rewrite negb_true_iff, <- not_true_iff_false, Hany. split.
    + intros Hno x Hx. destruct (p x) eqn:Hpx; [|reflexivity].
      exfalso. apply Hno. now exists x.
    + intros Hall (x & Hx & Hpx). rewrite (Hall x Hx) in Hpx. discriminate.
  - reflexivity.
  - unfold all_of, none_of. clear Hany. induction t as [|x t IH]; simpl; [reflexivity|].
    rewrite IH, negb_orb, negb_involutive. reflexivity.
Qed.

(** The quantifiers on two tuples of one size: [all_of] holds if [p]
    holds on the two elements at every index, [any_of] if at some index,
    and [none_of] is the negation of [any_of]. *)
Theorem quantifiers_on_two_tuples {T1 T2 : Type} (t1 : list T1) (t2 : list T2)
    (p : T1 -> T2 -> bool) :
  length t1 = length t2 ->
  exists a e,
    all_of2 t1 t2 p = Some a /\ any_of2 t1 t2 p = Some e
    /\ none_of2 t1 t2 p = Some (negb e)
    /\ (a = true <->
        forall i x y, nth_error t1 i = Some x -> nth_error t2 i = Some y ->
                      p x y = true)
    /\ (e = true <->
        exists i x y, nth_error t1 i = Some x /\ nth_error t2 i = Some y
                      /\ p x y = true).
Proof.
  intros Hlen. unfold all_of2, any_of2, none_of2.
  rewrite AlgorithmSpec.transform2_same_size by assumption. cbn [bind].
  do 2 eexists. do 3 (split; [reflexivity|]). split.
  - rewrite AlgorithmSpec.all_of_id_nth. split.
    + intros Hall i x y Hx Hy. apply (Hall i). now rewrite nth_error_map2, Hx, Hy.
    + intros Hall i c Hi. rewrite nth_error_map2 in Hi.
      destruct (nth_error t1 i) as [x|] eqn:Hx; [|discriminate].
      destruct (nth_error t2 i) as [y|] eqn:Hy; [|discriminate].
      injection Hi as <-. now apply (Hall i).
  - rewrite AlgorithmSpec.any_of_id_nth. split.
    + intros [i Hi]. rewrite nth_error_map2 in Hi.
      destruct (nth_error t1 i) as [x|] eqn:Hx; [|discriminate].
      destruct (nth_error t2 i) as [y|] eqn:Hy; [|discriminate].
      exists i, x, y. repeat split; congruence.
    + intros (i & x & y & Hx & Hy & Hp). exists i.
      now rewrite nth_error_map2, Hx, Hy, Hp.
Qed.

Lemma quantifiers_on_two_tuples_witness :
  exists a e,
    all_of2 [1; 2; 3] [1; 5; 3] Z.eqb = Some a
    /\ any_of2 [1; 2; 3] [1; 5; 3] Z.eqb = Some e
    /\ none_of2 [1; 2; 3] [1; 5; 3] Z.eqb = Some (negb e).
Proof.
  destruct (quantifiers_on_two_tuples [1; 2; 3] [1; 5; 3] Z.eqb eq_refl)
    as (a & e & Ha & He & Hn & _).
  exists a, e. repeat split; assumption.
Defined.

End ToolkitSpec.

(** ** More of the traversal loop *)

Section TraversalNever.
Context {C : Type} (op_ne : C -> C -> option bool) (op_incr : C -> C).

(** A loop whose test holds at every cursor has no result, whatever the
    fuel. *)
Lemma traverse_never (last : C) (fuel : nat) :
  forall it : C,
    (forall i, op_ne (Nat.iter i op_incr it) last = Some true) ->
    traverse op_ne op_incr fuel it last = None.
Proof.
  induction fuel as [|fuel IH]; intros it Hgo; simpl; [reflexivity|].
  pose proof (Hgo 0%nat) as H0. simpl in H0. rewrite H0. simpl.
  rewrite IH; [reflexivity|].
  intros i. specialize (Hgo (S i)). now rewrite Nat.iter_succ_r in Hgo.
Qed.

End TraversalNever.

(** ** More of the range adaptor *)

Module RangeFacts.

Import Range.

Lemma elements_steps (first last step : Z) (n fuel : nat) :
  (n < fuel)%nat ->
  (forall i, (i < n)%nat ->
     op_ne {| value_ := first + Z.of_nat i * step; step_ := step |}
           {| value_ := last; step_ := step |} = Some true) ->
  op_ne {| value_ := first + Z.of_nat n * step; step_ := step |}
        {| value_ := last; step_ := step |} = Some false ->
  elements fuel (range first last step) =
  Some (map (fun i => first + Z.of_nat i * step) (seq 0 n)).
Proof.
  intros Hfuel Hgo Hstop. unfold elements, begin_, end_, range; simpl.
  rewrite (traverse_steps op_ne op_incr _ n _ fuel Hfuel).
  - simpl. rewrite map_map. f_equal. apply map_ext. intros i.
    now rewrite RangeSpec.iter_range_incr.
  - intros i Hi. rewrite RangeSpec.iter_range_incr. now apply Hgo.
  - now rewrite RangeSpec.iter_range_incr.
Qed.

Lemma op_ne_same_step (v w step : Z) :
  op_ne {| value_ := v; step_ := step |} {| value_ := w; step_ := step |} =
  Some (if step >? 0 then v <? w else w <=? v).
Proof.
  unfold op_ne, op_eq, assert; simpl. rewrite Z.eqb_refl. simpl. f_equal.
  destruct (step >? 0).
  - destruct (Z.ltb_spec w v); destruct (Z.eqb_spec w v);
      destruct (Z.ltb_spec v w); simpl; try reflexivity; lia.
  - destruct (Z.ltb_spec v w); destruct (Z.leb_spec w v); simpl;
      try reflexivity; lia.
Qed.

(** [range(first, last)] yields the integers from [first] up to, and
    without, [last], in increasing order, and nothing when [last] is not
    above [first]; [range(last)] is [range(0, last)]. *)
Theorem range_half_open (first last : Z) (fuel : nat) :
  (Z.to_nat (last - first) < fuel)%nat ->
  exists l,
    elements fuel (range2 first last) = Some l
    /\ l = map (fun i => first + Z.of_nat i) (seq 0 (Z.to_nat (last - first)))
    /\ (forall v, In v l <-> first <= v < last)
    /\ (last <= first -> l = [])
    /\ elements fuel (range1 (last - first)) =
       Some (map Z.of_nat (seq 0 (Z.to_nat (last - first)))).
Proof.
  intros Hfuel. set (n := Z.to_nat (last - first)) in *.
  assert (Hel : forall a b, Z.to_nat (b - a) = n ->
    elements fuel (range a b 1) = Some (map (fun i => a + Z.of_nat i) (seq 0 n))).
  { intros a b Hab. rewrite (elements_steps a b 1 n fuel Hfuel).
    - f_equal. apply map_ext. intros i. f_equal. lia.
    - intros i Hi. rewrite op_ne_same_step. simpl.
      destruct (Z.ltb_spec (a + Z.of_nat i * 1) b); [reflexivity | lia].
    - rewrite op_ne_same_step. simpl.
      destruct (Z.ltb_spec (a + Z.of_nat n * 1) b); [lia | reflexivity]. }
  eexists. split; [apply Hel; reflexivity|]. split; [reflexivity|]. split; [|split].
  - intros v. rewrite in_map_iff. split.
    + intros (i & <- & Hi). apply in_seq in Hi. lia.
    + intros Hv. exists (Z.to_nat (v - first)). split; [lia|]. apply in_seq. lia.
  - intros Hle. replace n with 0%nat by lia. reflexivity.
  - unfold range1. rewrite (Hel 0 (last - first)) by (unfold n; f_equal; lia).
    reflexivity.
Qed.

Lemma range_half_open_witness :
  exists l, elements 5 (range2 2 6) = Some l /\ l = [2; 3; 4; 5].
Proof.
  destruct (range_half_open 2 6 5) as (l & Hl & Heq & _); [vm_compute; lia|].
  exists l. split; [exact Hl | exact Heq].
Defined.

(** Where the loop over a range has nothing to yield, or does not end: a
    positive step with [last] not above [first], and a step not positive
    with [last] above [first], yield nothing; a step of zero with [last]
    not above [first] never makes the cursor equal to [end()]. *)
Theorem range_empty_or_endless (first last step : Z) (fuel : nat) :
  (0 < step -> last <= first ->
   elements (S fuel) (range first last step) = Some [])
  /\ (step <= 0 -> first < last ->
      elements (S fuel) (range first last step) = Some [])
  /\ (step = 0 -> last <= first ->
      elements fuel (range first last step) = None).
Proof.
  split; [|split].
  - intros Hstep Hle. apply (elements_steps first last step 0); [lia | intros i Hi; lia |].
    rewrite op_ne_same_step. destruct (Z.gtb_spec step 0); [|lia]. f_equal.
    destruct (Z.ltb_spec (first + Z.of_nat 0 * step) last); [lia | reflexivity].
  - intros Hstep Hlt. apply (elements_steps first last step 0); [lia | intros i Hi; lia |].
    rewrite op_ne_same_step. destruct (Z.gtb_spec step 0); [lia|]. f_equal.
    destruct (Z.leb_spec last (first + Z.of_nat 0 * step)); [lia | reflexivity].
  - intros -> Hle. unfold elements, begin_, end_, range; simpl.
    rewrite traverse_never; [reflexivity|].
    intros i. rewrite RangeSpec.iter_range_incr, op_ne_same_step. simpl. f_equal.
    destruct (Z.leb_spec last (first + Z.of_nat i * 0)); [reflexivity | lia].
Qed.

Lemma range_empty_or_endless_witness :
  elements 1 (range 5 5 2) = Some []
  /\ elements 1 (range 0 5 (-1)) = Some []
  /\ elements 100 (range 5 0 0) = None.
Proof.
  destruct (range_empty_or_endless 5 5 2 0) as (H1 & _ & _).
  destruct (range_empty_or_endless 0 5 (-1) 0) as (_ & H2 & _).
  destruct (range_empty_or_endless 5 0 0 100) as (_ & _ & H3).
  split; [apply H1; lia | split; [apply H2; lia | apply H3; [reflexivity | lia]]].
Defined.

(** On cursors of one positive step, [x != y] is [x < y]; and [x == y]
    and [y == x] both hold only at one value, while one of them always
    holds. *)
Theorem range_compare_positive_step (x y : range_iterator) :
  step_ x = step_ y -> 0 < step_ x ->
  op_ne x y = Some (op_lt x y)
  /\ (op_eq x y = Some true /\ op_eq y x = Some true <-> value_ x = value_ y)
  /\ (op_eq x y = Some true \/ op_eq y x = Some true).
Proof.
  intros Hs Hpos. unfold op_ne.
  rewrite (RangeSpec.op_eq_positive_step x y), (RangeSpec.op_eq_positive_step y x)
    by congruence.
  unfold op_lt; simpl.
  destruct (Z.leb_spec (value_ y) (value_ x)); destruct (Z.leb_spec (value_ x) (value_ y));
    destruct (Z.ltb_spec (value_ x) (value_ y)); simpl; try lia.
  - repeat split; auto; lia.
  - repeat split; auto; try lia. intros [_ H2]. discriminate.
  - repeat split; auto; try lia. intros [H2 _]. discriminate.
Qed.

Lemma range_compare_positive_step_witness :
  op_ne {| value_ := 0; step_ := 2 |} {| value_ := 5; step_ := 2 |} = Some true
  /\ op_eq {| value_ := 6; step_ := 2 |} {| value_ := 5; step_ := 2 |} = Some true.
Proof.
  destruct (range_compare_positive_step
              {| value_ := 0; step_ := 2 |} {| value_ := 5; step_ := 2 |})
    as (H1 & _); [reflexivity | simpl; lia |].
  split; [exact H1 | reflexivity].
Defined.

End RangeFacts.

(** ** More of the strided adaptor *)

Module StridedFacts.

Import Strided.

Section OverVectors.
Context {V : Type}.

Lemma iter_incr_from (i : nat) (it : strided_iterator (vector_iterator V)) :
  Nat.iter i op_incr it =
  {| iterator_ := {| base := base (iterator_ it);
                     idx := idx (iterator_ it) + Z.of_nat i * stride_ it |};
     stride_ := stride_ it |}.
Proof.
  destruct it as [[c p] s]. apply StridedSpec.iter_strided_incr.
Qed.

(** The cursors of a view of the part of a sequence between two of its
    positions, the stride positive. *)
Lemma cursors_between (content : list V) (a b stride : Z) (fuel : nat) :
  0 < stride -> a <= b ->
  let n := Z.to_nat (Z.quot (b - a) stride) in
  (n < fuel)%nat ->
  cursors fuel
    {| first_ := {| base := content; idx := a |};
       last_ := {| base := content; idx := b |};
       proxy_stride_ := stride |} =
  Some (map (fun i => {| iterator_ := {| base := content;
                                         idx := a + Z.of_nat i * stride |};
                         stride_ := stride |}) (seq 0 n)).
Proof.
  intros Hstride Hab n Hfuel.
  assert (Hq : Z.quot (b - a) stride = (b - a) / stride)
    by (apply Z.quot_div_nonneg; lia).
  pose proof (Z.mul_div_le (b - a) stride Hstride) as Hlo.
  pose proof (Z.mul_succ_div_gt (b - a) stride Hstride) as Hhi.
  assert (Hn : Z.of_nat n = (b - a) / stride).
  { unfold n. rewrite Hq. apply Z2Nat.id. apply Z.div_pos; lia. }
  unfold cursors, begin_, end_, make, assert. cbn [first_ last_ proxy_stride_].
  rewrite (proj2 (Z.eqb_neq _ _) (Z.neq_sym _ _ (Z.lt_neq _ _ Hstride))).
  cbn [negb bind].
  rewrite (traverse_steps op_ne op_incr _ n _ fuel Hfuel).
  - f_equal. apply map_ext. intros i. now rewrite StridedSpec.iter_strided_incr.
  - intros i Hi.
    rewrite StridedSpec.iter_strided_incr, StridedSpec.op_ne_position by (simpl; lia).
    unfold position; simpl. f_equal.
    destruct (Z.eqb_spec (Z.quot (a + Z.of_nat i * stride - b) stride) 0) as [H0|];
      [|reflexivity].
    apply Z.quot_small_iff in H0; [|lia]. nia.
  - rewrite StridedSpec.iter_strided_incr, StridedSpec.op_ne_position by (simpl; lia).
    unfold position; simpl. f_equal.
    destruct (Z.eqb_spec (Z.quot (a + Z.of_nat n * stride - b) stride) 0) as [|H0];
      [reflexivity|].
    exfalso. apply H0. apply Z.quot_small_iff; [lia|]. nia.
Qed.

(** [strided(first, last, stride)] on two positions [a <= b] of one
    sequence and a positive stride: [size()] is [(b - a) / stride],
    truncated, and the loop ends and yields that many elements, the
    [i]-th the one at position [a + i * stride]; all are before [b]. *)
Theorem strided_between (content : list V) (a b stride : Z) (fuel : nat) :
  0 < stride -> 0 <= a -> a <= b -> b <= Z.of_nat (length content) ->
  let n := Z.to_nat (Z.quot (b - a) stride) in
  (n < fuel)%nat ->
  exists p,
    strided_range {| base := content; idx := a |} {| base := content; idx := b |}
      stride = Some p
    /\ size p = Some (Z.quot (b - a) stride)
    /\ exists l, elements fuel p = Some l
         /\ length l = n
         /\ forall i, (i < n)%nat ->
              nth_error l i = nth_error content (Z.to_nat a + i * Z.to_nat stride)
              /\ nth_error l i <> None
              /\ a + Z.of_nat i * stride < b.
Proof.
  intros Hstride Ha Hab Hb n Hfuel.
  assert (Hq : Z.quot (b - a) stride = (b - a) / stride)
    by (apply Z.quot_div_nonneg; lia).
  pose proof (Z.mul_div_le (b - a) stride Hstride) as Hlo.
  assert (Hn : Z.of_nat n = (b - a) / stride).
  { unfold n. rewrite Hq. apply Z2Nat.id. apply Z.div_pos; lia. }
  assert (Hnz : (stride =? 0) = false) by (apply Z.eqb_neq; lia).
  assert (Hderef : forall i, (i < n)%nat ->
    op_deref {| iterator_ := {| base := content; idx := a + Z.of_nat i * stride |};
                stride_ := stride |} =
    nth_error content (Z.to_nat a + i * Z.to_nat stride)
    /\ nth_error content (Z.to_nat a + i * Z.to_nat stride) <> None
    /\ a + Z.of_nat i * stride < b).
  { intros i Hi. assert (Hin : a + Z.of_nat i * stride < b) by nia.
    unfold op_deref; simpl. unfold vector_deref; simpl.
    destruct (Z.leb_spec 0 (a + Z.of_nat i * stride)); [|nia].
    destruct (Z.ltb_spec (a + Z.of_nat i * stride) (Z.of_nat (length content))); [|lia].
    simpl. rewrite Z2Nat.inj_add, Z2Nat.inj_mul, Nat2Z.id by nia.
    split; [reflexivity|]. split; [|exact Hin]. apply nth_error_Some. nia. }
  eexists. split; [|split].
  - unfold strided_range, assert. rewrite Hnz. reflexivity.
  - unfold size, assert, distance. cbn [proxy_stride_ first_ last_]. now rewrite Hnz.
  - unfold elements. rewrite cursors_between by assumption. cbn [bind]. fold n.
    destruct (sequence_map_defined op_deref
      (map (fun i => {| iterator_ := {| base := content;
                                        idx := a + Z.of_nat i * stride |};
                        stride_ := stride |}) (seq 0 n)))
      as (l & Hl & Hlen & Hnth).
    + intros x Hx. apply in_map_iff in Hx as (i & <- & Hi). apply in_seq in Hi.
      destruct (Hderef i ltac:(lia)) as (-> & Hsome & _). exact Hsome.
    + exists l. split; [exact Hl|]. rewrite length_map, length_seq in Hlen.
      split; [exact Hlen|]. intros i Hi.
      destruct (Hderef i Hi) as (Hd & Hsome & Hin).
      rewrite (Hnth i {| iterator_ := {| base := content;
                                         idx := a + Z.of_nat i * stride |};
                         stride_ := stride |}).
      * rewrite Hd. repeat split; assumption.
      * rewrite nth_error_map, nth_error_seq.
        destruct (Nat.ltb_spec i n); [reflexivity | lia].
Qed.

(** A view of stride 1 of a whole sequence yields the sequence. *)
Theorem strided_by_one (content : list V) (fuel : nat) :
  (length content < fuel)%nat ->
  exists p, strided content 1 = Some p
    /\ size p = Some (Z.of_nat (length content))
    /\ elements fuel p = Some content.
Proof.
  intros Hfuel.
  assert (Hn : Z.to_nat (Z.quot (Z.of_nat (length content) - 0) 1) = length content).
  { rewrite Z.sub_0_r, Z.quot_1_r. apply Nat2Z.id. }
  destruct (strided_between content 0 (Z.of_nat (length content)) 1 fuel)
    as (p & Hp & Hsize & l & Hl & Hlen & Hnth); try lia.
  exists p. split; [exact Hp|]. split.
  - rewrite Hsize. now rewrite Z.sub_0_r, Z.quot_1_r.
  - rewrite Hl. f_equal. apply nth_error_ext. intros i.
    destruct (Nat.lt_ge_cases i (length content)) as [Hi | Hi].
    + destruct (Hnth i ltac:(lia)) as (-> & _). f_equal. simpl. lia.
    + rewrite (proj2 (nth_error_None content i) Hi).
      apply nth_error_None. lia.
Qed.

(** Of [x < y], [x == y] and [y < x] on two cursors of one stride, not
    zero, one and only one holds; with a positive stride [x < y] is that
    [y] is a whole stride or more after [x]. *)
Theorem strided_trichotomy (x y : strided_iterator (vector_iterator V)) :
  stride_ x = stride_ y -> stride_ x <> 0 ->
  exists lt eq gt,
    op_lt x y = Some lt /\ op_eq x y = Some eq /\ op_lt y x = Some gt
    /\ ((lt = true /\ eq = false /\ gt = false)
        \/ (lt = false /\ eq = true /\ gt = false)
        \/ (lt = false /\ eq = false /\ gt = true))
    /\ (0 < stride_ x -> (lt = true <-> position x + stride_ x <= position y)).
Proof.
  intros Hs Hnz.
  rewrite StridedSpec.op_eq_position, StridedSpec.op_lt_position by assumption.
  rewrite (StridedSpec.op_lt_position y x) by congruence. rewrite <- Hs.
  do 3 eexists. do 3 (split; [reflexivity|]).
  set (d := position y - position x).
  replace (position x - position y) with (- d) by (unfold d; lia).
  rewrite Z.quot_opp_l by assumption.
  split.
  - destruct (Z.gtb_spec (Z.quot d (stride_ x)) 0);
      destruct (Z.eqb_spec (- Z.quot d (stride_ x)) 0);
      destruct (Z.gtb_spec (- Z.quot d (stride_ x)) 0); try lia; auto.
  - intros Hpos. destruct (Z.gtb_spec (Z.quot d (stride_ x)) 0) as [Hq | Hq].
    + split; [intros _ | reflexivity].
      destruct (Z_lt_le_dec d (stride_ x)) as [Hlt | Hle]; [|lia].
      destruct (Z_lt_le_dec d 0) as [Hneg | Hnn].
      * pose proof (Z.quot_opp_l d (stride_ x) Hnz).
        pose proof (Z.quot_pos (- d) (stride_ x) ltac:(lia) Hpos). lia.
      * rewrite Z.quot_small in Hq by lia. lia.
    + split; [discriminate | intros Hge; exfalso].
      assert (1 <= Z.quot d (stride_ x)); [|lia].
      rewrite Z.quot_div_nonneg by lia.
      apply Z.div_le_lower_bound; lia.
Qed.

(** [==] on cursors of one stride above 1 is not transitive: the cursor
    one position after [x] is equal to [x] and to the cursor one stride
    after [x], which are not equal. *)
Theorem strided_equality_not_transitive (content : list V) (p stride : Z) :
  1 < stride ->
  let x := {| iterator_ := {| base := content; idx := p |}; stride_ := stride |} in
  let y := {| iterator_ := {| base := content; idx := p + 1 |}; stride_ := stride |} in
  let z := op_incr x in
  op_eq x y = Some true /\ op_eq y z = Some true /\ op_eq x z = Some false.
Proof.
  intros Hstride x y z.
  rewrite !StridedSpec.op_eq_position by (simpl; lia).
  unfold position; simpl. repeat split; f_equal.
  - apply Z.eqb_eq. apply Z.quot_small_iff; lia.
  - apply Z.eqb_eq. apply Z.quot_small_iff; lia.
  - apply Z.eqb_neq. replace (p - (p + stride)) with (- stride) by lia.
    rewrite Z.quot_opp_l, Z.quot_same by lia. lia.
Qed.

(** [it += n] is [n] times [++it] for [n >= 0], [-=] undoes [+=] and
    [--] undoes [++], [it[n]] is the element [it += n] is at, [x + n] is
    [x += n], and [it += n] is [n] away from [it]. *)
Theorem strided_advance_laws (it : strided_iterator (vector_iterator V))
    (n : Z) (k : nat) :
  stride_ it <> 0 ->
  Nat.iter k op_incr it = op_plus_assign it (Z.of_nat k)
  /\ op_minus_assign (op_plus_assign it n) n = it
  /\ op_decr (op_incr it) = it
  /\ op_index it n = op_deref (op_plus it n)
  /\ op_minus (op_plus_assign it n) it = Some n.
Proof.
  intros Hnz. split; [|split; [|split; [|split]]].
  - rewrite iter_incr_from. reflexivity.
  - destruct it as [[c p] s].
    unfold op_minus_assign, op_plus_assign, advance; simpl. do 2 f_equal. lia.
  - destruct it as [[c p] s]. unfold op_decr, op_incr, advance; simpl.
    do 2 f_equal. lia.
  - reflexivity.
  - rewrite StridedSpec.op_minus_position by (simpl; auto).
    destruct it as [[c p] s]. unfold position; simpl in *. f_equal.
    replace (p + n * s - p) with (n * s) by lia. now apply Z.quot_mul.
Qed.

End OverVectors.

Lemma strided_between_witness :
  exists p,
    strided_range {| base := [10; 11; 12; 13; 14; 15; 16]; idx := 1 |}
                  {| base := [10; 11; 12; 13; 14; 15; 16]; idx := 6 |} 2 = Some p
    /\ size p = Some 2
    /\ exists l, elements 3 p = Some l /\ length l = 2%nat.
Proof.
  destruct (strided_between [10; 11; 12; 13; 14; 15; 16] 1 6 2 3)
    as (p & Hp & Hsize & l & Hl & Hlen & _); try (simpl; lia); try (vm_compute; lia).
  exists p. split; [exact Hp|]. split; [exact Hsize|].
  exists l. split; [exact Hl | exact Hlen].
Defined.

Lemma strided_by_one_witness :
  exists p, strided [7; 8; 9] 1 = Some p /\ elements 4 p = Some [7; 8; 9].
Proof.
  destruct (strided_by_one [7; 8; 9] 4) as (p & Hp & _ & Hel); [simpl; lia|].
  exists p. split; [exact Hp | exact Hel].
Defined.

Lemma strided_trichotomy_witness :
  let x := {| iterator_ := std_begin [1; 2; 3; 4; 5]; stride_ := 2 |} in
  let y := {| iterator_ := std_end [1; 2; 3; 4; 5]; stride_ := 2 |} in
  exists lt eq gt,
    op_lt x y = Some lt /\ op_eq x y = Some eq /\ op_lt y x = Some gt
    /\ (lt = true <-> position x + stride_ x <= position y).
Proof.
  intros x y.
  destruct (strided_trichotomy x y) as (lt & eq & gt & H1 & H2 & H3 & _ & H5);
    [reflexivity | simpl; lia |].
  exists lt, eq, gt. repeat split; try assumption; apply H5; simpl; lia.
Defined.

Lemma strided_equality_not_transitive_witness :
  let x := {| iterator_ := std_begin [1; 2; 3; 4; 5]; stride_ := 2 |} in
  let y := {| iterator_ := {| base := [1; 2; 3; 4; 5]; idx := 0 + 1 |}; stride_ := 2 |} in
  op_eq x y = Some true /\ op_eq y (op_incr x) = Some true
  /\ op_eq x (op_incr x) = Some false.
Proof.
  apply (strided_equality_not_transitive [1; 2; 3; 4; 5] 0 2). lia.
Defined.

Lemma strided_advance_laws_witness :
  let it := {| iterator_ := std_begin [1; 2; 3; 4; 5]; stride_ := 2 |} in
  op_minus (op_plus_assign it 2) it = Some 2.
Proof.
  intros it.
  destruct (strided_advance_laws it 2 0) as (_ & _ & _ & _ & H); [simpl; lia | exact H].
Defined.

End StridedFacts.

(** ** More of the zip adaptor *)

Lemma sequence_map_total {A B : Type} (g : A -> option B) (h : A -> B) (xs : list A) :
  (forall x, In x xs -> g x = Some (h x)) ->
  sequence (map g xs) = Some (map h xs).
Proof.
  induction xs as [|x xs IH]; intros Hg; simpl; [reflexivity|].
  rewrite (Hg x (or_introl eq_refl)). simpl.
  rewrite IH by (intros y Hy; apply Hg; now right). reflexivity.
Qed.

Module ZipFacts.

Import Algorithm Zip.

Lemma for_each_stateless {T : Type} (g : T -> T) (t : list T) :
  fst (for_each t (fun x (u : unit) => (g x, u)) tt) = map g t.
Proof.
  induction t as [|x t IH]; simpl; [reflexivity|].
  destruct (for_each t _ tt) as [r u]; simpl in *. now rewrite IH.
Qed.

Section OverVectors.
Context {V : Type}.

(** The cursor of [zip(args...)] at position [i] of every sequence. *)
Lemma iter_incr_begin (args : list (list V)) (i : nat) :
  Nat.iter i op_incr (map std_begin args) =
  map (fun c => {| base := c; idx := Z.of_nat i |}) args.
Proof.
  induction i as [|i IH].
  - reflexivity.
  - rewrite Nat.iter_succ, IH. unfold op_incr. rewrite for_each_stateless, map_map.
    apply map_ext. intros c. simpl. f_equal. lia.
Qed.

Lemma op_eq_at_end (args : list (list V)) (i : nat) :
  exists r,
    op_eq (map (fun c => {| base := c; idx := Z.of_nat i |}) args)
          (map std_end args) = Some r
    /\ (r = true <-> exists c, In c args /\ length c = i).
Proof.
  destruct (ZipSpec.op_eq_any_component
              (map (fun c => {| base := c; idx := Z.of_nat i |}) args)
              (map std_end args)) as (r & Hr & Hiff);
    [now rewrite !length_map|].
  exists r. split; [exact Hr|]. rewrite Hiff. split.
  - intros (j & a & b & Ha & Hb & Hab).
    rewrite nth_error_map in Ha, Hb.
    destruct (nth_error args j) as [c|] eqn:Hc; [|discriminate].
    injection Ha as <-. injection Hb as <-. simpl in Hab.
    exists c. split; [now apply (nth_error_In _ j)|].
    apply Z.eqb_eq in Hab. lia.
  - intros (c & Hc & Hlen). apply In_nth_error in Hc as [j Hj].
    exists j, {| base := c; idx := Z.of_nat i |}, (std_end c).
    rewrite !nth_error_map, Hj. repeat split. simpl. apply Z.eqb_eq. lia.
Qed.

Lemma cursors_shortest (args : list (list V)) (m fuel : nat) :
  (exists c, In c args /\ length c = m) ->
  (forall c, In c args -> (m <= length c)%nat) ->
  (m < fuel)%nat ->
  cursors fuel (zip args) =
  Some (map (fun i => map (fun c => {| base := c; idx := Z.of_nat i |}) args)
            (seq 0 m)).
Proof.
  intros Hmin Hall Hfuel. unfold cursors, begin_, end_, zip; simpl.
  rewrite (traverse_steps op_ne op_incr _ m _ fuel Hfuel).
  - f_equal. apply map_ext. intros i. apply iter_incr_begin.
  - intros i Hi. rewrite iter_incr_begin. unfold op_ne.
    destruct (op_eq_at_end args i) as (r & -> & Hiff). simpl. f_equal.
    destruct r; [|reflexivity].
    destruct (proj1 Hiff eq_refl) as (c & Hc & Hlen).
    specialize (Hall c Hc). lia.
  - rewrite iter_incr_begin. unfold op_ne.
    destruct (op_eq_at_end args m) as (r & -> & Hiff). simpl. f_equal.
    rewrite (proj2 Hiff Hmin). reflexivity.
Qed.

(** The loop over [zip(args...)], [m] the least of the sizes of the
    sequences, ends, and yields [m] tuples, the [i]-th made of the
    elements at position [i] of every sequence, in the order of the
    arguments; no sequence is read at position [m] or after. *)
Theorem zip_stops_at_shortest (d : V) (args : list (list V)) (m fuel : nat) :
  (exists c, In c args /\ length c = m) ->
  (forall c, In c args -> (m <= length c)%nat) ->
  (m < fuel)%nat ->
  cursors fuel (zip args) =
    Some (map (fun i => map (fun c => {| base := c; idx := Z.of_nat i |}) args)
              (seq 0 m))
  /\ elements fuel (zip args) =
     Some (map (fun i => map (fun c => nth i c d) args) (seq 0 m)).
Proof.
  intros Hmin Hall Hfuel.
  split; [now apply cursors_shortest|].
  unfold elements. rewrite (cursors_shortest args m fuel) by assumption. cbn [bind].
  rewrite map_map. apply sequence_map_total.
  intros i Hi. apply in_seq in Hi. unfold op_deref.
  rewrite AlgorithmSpec.transform_map. cbn [bind]. rewrite map_map.
  apply sequence_map_total. intros c Hc. simpl. unfold vector_deref; simpl.
  specialize (Hall c Hc).
  destruct (Z.leb_spec 0 (Z.of_nat i)); [|lia].
  destruct (Z.ltb_spec (Z.of_nat i) (Z.of_nat (length c))); [|lia].
  simpl. rewrite Nat2Z.id. apply nth_error_nth'. lia.
Qed.

(** [end() - begin()] of [zip(args...)] is the least of the sizes of the
    sequences, the number of tuples the loop yields. *)
Theorem zip_distance_is_count (args : list (list V)) (m fuel : nat) :
  (exists c, In c args /\ length c = m) ->
  (forall c, In c args -> (m <= length c)%nat) ->
  (m < fuel)%nat ->
  op_minus (end_ (zip args)) (begin_ (zip args)) = Some (Z.of_nat m)
  /\ exists l, elements fuel (zip args) = Some l /\ length l = m.
Proof.
  intros (c0 & Hc0 & Hlen0) Hall Hfuel. split.
  - unfold op_minus, end_, begin_, zip; cbn [first_ last_].
    rewrite AlgorithmSpec.transform2_same_size by now rewrite !length_map.
    cbn [bind].
    set (diff_tuple := map _ (combine _ _)).
    assert (Hdiff : forall j, nth_error diff_tuple j =
              option_map (fun c => Z.of_nat (length c)) (nth_error args j)).
    { intros j. unfold diff_tuple. rewrite nth_error_map2, !nth_error_map.
      destruct (nth_error args j); simpl; [f_equal; lia | reflexivity]. }
    destruct (AlgorithmSpec.min_least diff_tuple) as (dmin & Hd & Hin & Hleast).
    { apply In_nth_error in Hc0 as [j Hj]. intros Hnil.
      specialize (Hdiff j). rewrite Hnil, Hj in Hdiff. now destruct j. }
    rewrite Hd. f_equal.
    apply In_nth_error in Hin as [j Hj]. rewrite Hdiff in Hj.
    destruct (nth_error args j) as [c|] eqn:Hc; [|discriminate].
    injection Hj as <-. apply nth_error_In in Hc. specialize (Hall c Hc).
    apply In_nth_error in Hc0 as [j0 Hj0].
    specialize (Hleast (Z.of_nat (length c0))).
    assert (Hin0 : In (Z.of_nat (length c0)) diff_tuple).
    { apply (nth_error_In _ j0). now rewrite Hdiff, Hj0. }
    specialize (Hleast Hin0). lia.
  - destruct c0 as [|d c0'].
    + simpl in Hlen0. subst m. destruct fuel as [|fuel]; [lia|].
      unfold elements.
      rewrite (cursors_shortest args 0 (S fuel)); eauto.
      exists []. split; reflexivity.
    + destruct (zip_stops_at_shortest d args m fuel) as (_ & Hel); eauto.
      eexists. split; [exact Hel|]. now rewrite length_map, length_seq.
Qed.

Lemma op_lt_all_components (x y : zip_iterator (vector_iterator V)) :
  length x = length y ->
  exists r, op_lt x y = Some r
    /\ (r = true <->
        forall i a b, nth_error x i = Some a -> nth_error y i = Some b ->
                      idx a < idx b).
Proof.
  intros Hlen. unfold op_lt, all_of2.
  rewrite AlgorithmSpec.transform2_same_size by assumption.
  eexists; split; [reflexivity|].
  rewrite AlgorithmSpec.all_of_id_nth. split.
  - intros Hall i a b Ha Hb. apply Z.ltb_lt. apply (Hall i).
    now rewrite nth_error_map2, Ha, Hb.
  - intros Hall i c Hi. rewrite nth_error_map2 in Hi.
    destruct (nth_error x i) as [a|] eqn:Ha; [|discriminate].
    destruct (nth_error y i) as [b|] eqn:Hb; [|discriminate].
    injection Hi as <-. apply Z.ltb_lt. now apply (Hall i).
Qed.

(** On zip cursors over vectors, [x < y] and [x == y] never both hold:
    [x < y] gives [x != y]. *)
Theorem zip_less_is_unequal (x y : zip_iterator (vector_iterator V)) :
  length x = length y ->
  op_lt x y = Some true ->
  op_ne x y = Some true /\ op_eq x y = Some false.
Proof.
  intros Hlen Hlt.
  destruct (op_lt_all_components x y Hlen) as (r & Hr & Hall).
  rewrite Hr in Hlt. injection Hlt as ->.
  destruct (ZipSpec.op_eq_any_component x y Hlen) as (e & He & Hany).
  unfold op_ne. rewrite He. destruct e; [|split; reflexivity].
  destruct (proj1 Hany eq_refl) as (i & a & b & Ha & Hb & Hab).
  pose proof (proj1 Hall eq_refl i a b Ha Hb) as Hlt.
  simpl in Hab. apply Z.eqb_eq in Hab. lia.
Qed.

(** [it += n] is [n] times [++it] for [n >= 0], [-=] undoes [+=] and
    [--] undoes [++], [it[n]] is the tuple [it += n] is at, and, with an
    iterator at least, [it += n] is [n] away from [it]. *)
Theorem zip_advance_laws (it : zip_iterator (vector_iterator V)) (n : Z) (k : nat) :
  Nat.iter k op_incr it = op_plus_assign it (Z.of_nat k)
  /\ op_minus_assign (op_plus_assign it n) n = it
  /\ op_decr (op_incr it) = it
  /\ op_index it n = op_deref (op_plus it n)
  /\ (it <> [] -> op_minus (op_plus_assign it n) it = Some n).
Proof.
  assert (Hplus : forall j, op_plus_assign it j =
            map (fun a => {| base := base a; idx := idx a + j |}) it).
  { intros j. unfold op_plus_assign. now rewrite for_each_stateless. }
  split; [|split; [|split; [|split]]].
  - rewrite Hplus. induction k as [|k IH].
    + simpl. rewrite <- (map_id it) at 1. apply map_ext.
      intros [c p]; simpl. f_equal. lia.
    + rewrite Nat.iter_succ, IH. unfold op_incr. rewrite for_each_stateless, map_map.
      apply map_ext. intros [c p]; simpl. f_equal. lia.
  - rewrite Hplus. unfold op_minus_assign. rewrite for_each_stateless, map_map.
    rewrite <- (map_id it) at 2. apply map_ext. intros [c p]; simpl. f_equal. lia.
  - unfold op_decr, op_incr. rewrite !for_each_stateless, map_map.
    rewrite <- (map_id it) at 2. apply map_ext. intros [c p]; simpl. f_equal. lia.
  - unfold op_index, op_deref, op_plus. rewrite Hplus.
    rewrite !AlgorithmSpec.transform_map, map_map. reflexivity.
  - intros Hne. unfold op_minus. rewrite Hplus.
    rewrite AlgorithmSpec.transform2_same_size by now rewrite length_map.
    cbn [bind].
    set (diff_tuple := map _ (combine _ _)).
    assert (Hdiff : forall j, nth_error diff_tuple j =
              option_map (fun _ => n) (nth_error it j)).
    { intros j. unfold diff_tuple. rewrite nth_error_map2, nth_error_map.
      destruct (nth_error it j); simpl; [f_equal; lia | reflexivity]. }
    destruct (AlgorithmSpec.min_least diff_tuple) as (dmin & Hd & Hin & _).
    { destruct it as [|a it']; [congruence|]. intros Hnil.
      specialize (Hdiff 0%nat). rewrite Hnil in Hdiff. discriminate. }
    rewrite Hd. f_equal. apply In_nth_error in Hin as [j Hj]. rewrite Hdiff in Hj.
    destruct (nth_error it j); [|discriminate]. now injection Hj.
Qed.

End OverVectors.

Lemma zip_stops_at_shortest_witness :
  elements 3 (zip [[1; 2; 3]; [10; 20]; [100; 200; 300; 400]]) =
  Some [[1; 10; 100]; [2; 20; 200]].
Proof.
  destruct (zip_stops_at_shortest 0 [[1; 2; 3]; [10; 20]; [100; 200; 300; 400]] 2 3)
    as (_ & Hel).
  - exists [10; 20]. split; [right; left; reflexivity | reflexivity].
  - intros c [<- | [<- | [<- | []]]]; simpl; lia.
  - lia.
  - exact Hel.
Defined.

Lemma zip_distance_is_count_witness :
  op_minus (end_ (zip [[1; 2; 3]; [10; 20]])) (begin_ (zip [[1; 2; 3]; [10; 20]]))
  = Some 2.
Proof.
  destruct (zip_distance_is_count [[1; 2; 3]; [10; 20]] 2 3) as (Hd & _).
  - exists [10; 20]. split; [right; left; reflexivity | reflexivity].
  - intros c [<- | [<- | []]]; simpl; lia.
  - lia.
  - exact Hd.
Defined.

Lemma zip_less_is_unequal_witness :
  op_ne (begin_ (zip [[1; 2; 3]; [10; 20]])) (end_ (zip [[1; 2; 3]; [10; 20]]))
  = Some true.
Proof.
  destruct (zip_less_is_unequal
              (begin_ (zip [[1; 2; 3]; [10; 20]]))
              (end_ (zip [[1; 2; 3]; [10; 20]]))) as (Hne & _);
    [reflexivity | reflexivity | exact Hne].
Defined.

Lemma zip_advance_laws_witness :
  op_minus (op_plus_assign (begin_ (zip [[1; 2; 3]; [10; 20]])) 2)
           (begin_ (zip [[1; 2; 3]; [10; 20]])) = Some 2.
Proof.
  destruct (zip_advance_laws (begin_ (zip [[1; 2; 3]; [10; 20]])) 2 0)
    as (_ & _ & _ & _ & H).
  apply H. discriminate.
Defined.

End ZipFacts.

(** ** [check_same] *)

Module HelpersSpec.

Import Helpers.

Section CheckSame.
Context {T : Type} (eqb : T -> T -> bool).
Hypothesis eqb_eq : forall a b, eqb a b = true <-> a = b.

(** [check_same(x, y)], [y] at least as long as [x], is whether [x] is
    the start of [y]: what [y] has after the size of [x] is not looked
    at.  On a [y] shorter than [x] that is the start of [x], it reads
    past the end of [y]. *)
Theorem check_same_prefix (x y : list T) :
  ((length x <= length y)%nat ->
   exists r, check_same eqb x y = Some r
     /\ (r = true <-> x = firstn (length x) y))
  /\ ((length y < length x)%nat -> y = firstn (length y) x ->
      check_same eqb x y = None).
Proof.
  unfold check_same. split.
  - revert y; induction x as [|a x IH]; intros [|b y] Hlen; simpl in *; try lia.
    + exists true. split; [reflexivity | tauto].
    + exists true. split; [reflexivity | tauto].
    + destruct (eqb a b) eqn:Hab.
      * apply eqb_eq in Hab as ->.
        destruct (IH y ltac:(lia)) as (r & Hr & Hiff).
        exists r. split; [exact Hr|]. rewrite Hiff. split; [congruence|].
        intros Heq. now injection Heq.
      * exists false. split; [reflexivity|]. split; [discriminate|].
        intros Heq. injection Heq as Heq _. apply eqb_eq in Heq. congruence.
  - revert y; induction x as [|a x IH]; intros [|b y] Hlen Hpre; simpl in *;
      try lia; try reflexivity.
    injection Hpre as Hab Hpre. subst b. rewrite (proj2 (eqb_eq a a) eq_refl).
    apply IH; [lia | exact Hpre].
Qed.

End CheckSame.

Lemma check_same_prefix_witness :
  exists r, check_same Z.eqb [1; 2] [1; 2; 3] = Some r
    /\ (r = true <-> [1; 2] = firstn 2 [1; 2; 3]).
Proof.
  destruct (check_same_prefix Z.eqb Z.eqb_eq [1; 2] [1; 2; 3]) as (H & _).
  apply H. simpl. lia.
Defined.

End HelpersSpec.

(** ** The stop watch *)

Module StopWatchSpec.

Import StopWatch.

(** A watch made, started at [t0], stopped at [t1], started at [t2] and
    stopped at [t3] holds the two intervals, [(t1 - t0) + (t3 - t2)], and
    is not running; [start] on a running watch and [stop] on a stopped
    one change nothing, whatever the clock reads. *)
Theorem watch_adds_intervals (w : watch) (t0 t1 t2 t3 t t' : Z) :
  let w4 := stop (start (stop (start make t0) t1) t2) t3 in
  duration_ w4 = (t1 - t0) + (t3 - t2)
  /\ is_running w4 = false
  /\ start (start w t) t' = start w t
  /\ stop (stop w t) t' = stop w t.
Proof.
  cbv zeta. split; [|split; [|split]].
  - simpl. lia.
  - reflexivity.
  - unfold start, is_running. destruct (is_running_ w) eqn:Hr; simpl; now rewrite ?Hr.
  - unfold stop, is_running. destruct (is_running_ w) eqn:Hr; simpl; now rewrite ?Hr.
Qed.

(** Asking a running watch for the time elapsed gives what it held plus
    the time since it was started, leaves it running, and does not
    change what a later [stop] leaves in it; on a stopped watch it gives
    what the watch holds and changes nothing. *)
Theorem elapsed_is_transparent (w : watch) (t t' : Z) :
  (is_running w = true ->
   snd (elapsed w t) = duration_ w + (t - start_ w)
   /\ is_running (fst (elapsed w t)) = true
   /\ duration_ (stop (fst (elapsed w t)) t') = duration_ (stop w t')
   /\ is_running (stop (fst (elapsed w t)) t') = false)
  /\ (is_running w = false -> elapsed w t = (w, duration_ w)).
Proof.
  destruct w as [s d r]. unfold elapsed, stop, touch_, is_running; simpl.
  split; intros ->; simpl; repeat split; lia.
Qed.

Lemma elapsed_is_transparent_witness :
  snd (elapsed (start make 10) 25) = 15
  /\ duration_ (stop (fst (elapsed (start make 10) 25)) 40) = 30.
Proof.
  destruct (elapsed_is_transparent (start make 10) 25 40) as (H & _).
  destruct (H eq_refl) as (H1 & _ & H3 & _).
  split; [exact H1 | exact H3].
Defined.

(** Whatever the watch held and whether it ran, after [restart] it runs
    from the reading of its [start] with nothing held, so a [stop] leaves
    the time since that reading; after [reset] it is stopped with nothing
    held. *)
Theorem restart_from_zero (w : watch) (t1 t2 t3 : Z) :
  let r := restart w t1 t2 in
  is_running r = true /\ duration_ r = 0 /\ start_ r = t2
  /\ duration_ (stop r t3) = t3 - t2
  /\ is_running (reset w t1) = false /\ duration_ (reset w t1) = 0.
Proof.
  unfold restart, reset, start, stop, is_running.
  destruct (is_running_ w) eqn:Hr; simpl; rewrite ?Hr; simpl; repeat split; lia.
Qed.

(** With a clock that does not go back, the watch never holds a negative
    time: if it holds none, and was started no later than the reading
    [t] if it runs, then so it is after each operation at readings from
    [t] on, and the time held does not go down but by [reset] and
    [restart]. *)
Theorem watch_steady (w : watch) (t t1 t2 : Z) :
  0 <= duration_ w -> (is_running w = true -> start_ w <= t) ->
  t <= t1 -> t1 <= t2 ->
  let good (w' : watch) (now : Z) :=
    0 <= duration_ w' /\ (is_running w' = true -> start_ w' <= now) in
  good (start w t1) t1 /\ good (stop w t1) t1 /\ good (reset w t1) t1
  /\ good (restart w t1 t2) t2 /\ good (fst (elapsed w t1)) t1
  /\ duration_ w <= duration_ (stop w t1)
  /\ duration_ w <= snd (elapsed w t1)
  /\ duration_ (start w t1) = duration_ w.
Proof.
  intros Hd Hs Ht1 Ht2 good. unfold good; clear good.
  unfold restart, reset, elapsed, touch_, start, stop, is_running in *.
  destruct (is_running_ w) eqn:Hr; simpl; rewrite ?Hr; simpl;
    try specialize (Hs eq_refl); repeat split; intros; try lia; try discriminate.
Qed.

Lemma watch_steady_witness :
  0 <= duration_ (stop (start make 10) 25)
  /\ duration_ (start make 10) <= snd (elapsed (start make 10) 25).
Proof.
  pose proof (watch_steady (start make 10) 10 25 30
                ltac:(simpl; lia) ltac:(intros _; simpl; lia)
                ltac:(lia) ltac:(lia)) as H.
  destruct H as (_ & (H2 & _) & _ & _ & _ & _ & H7 & _).
  split; [exact H2 | exact H7].
Defined.

End StopWatchSpec.

(** ** The integer types of C++ *)

Module IntegerSpec.

Import Integer.

Lemma pow2_half (w : Z) : 0 < w -> 2 ^ w = 2 * 2 ^ (w - 1) /\ 0 < 2 ^ (w - 1).
Proof.
  intros Hw. split.
  - replace w with (Z.succ (w - 1)) at 1 by lia. apply Z.pow_succ_r. lia.
  - apply Z.pow_pos_nonneg; lia.
Qed.

Lemma in_range_iff (T : int_type) (z : Z) :
  in_range T z = true <-> min_value T <= z <= max_value T.
Proof. unfold in_range. rewrite andb_true_iff, !Z.leb_le. tauto. Qed.

Lemma convert_in_range (T : int_type) (z : Z) :
  0 < width T -> in_range T z = true -> convert T z = z.
Proof.
  intros Hw Hz. apply in_range_iff in Hz.
  destruct (pow2_half (width T) Hw) as [Hp Hpos].
  unfold convert, min_value, max_value in *. destruct (is_signed T).
  - rewrite Z.mod_small; lia.
  - apply Z.mod_small. lia.
Qed.

Lemma convert_is_in_range (T : int_type) (z : Z) :
  0 < width T -> in_range T (convert T z) = true.
Proof.
  intros Hw. apply in_range_iff.
  destruct (pow2_half (width T) Hw) as [Hp Hpos].
  unfold convert, min_value, max_value. destruct (is_signed T).
  - pose proof (Z.mod_pos_bound (z + 2 ^ (width T - 1)) (2 ^ width T) ltac:(lia)). lia.
  - pose proof (Z.mod_pos_bound z (2 ^ width T) ltac:(lia)). lia.
Qed.

Lemma promote_width (T : int_type) : 0 < width T -> 32 <= width (promote T).
Proof.
  intros Hw. unfold promote. simpl.
  destruct (Z.ltb_spec (width T) 32); simpl; lia.
Qed.

Lemma promote_idem (T : int_type) : promote (promote T) = promote T.
Proof.
  unfold promote. simpl. destruct (Z.ltb_spec (width T) 32) as [H | H]; simpl.
  - reflexivity.
  - destruct (Z.ltb_spec (width T) 32); [lia | reflexivity].
Qed.

Lemma in_range_promote (T : int_type) (z : Z) :
  0 < width T -> in_range T z = true -> in_range (promote T) z = true.
Proof.
  intros Hw Hz. unfold promote. simpl.
  destruct (Z.ltb_spec (width T) 32) as [Hnarrow | Hwide]; [|exact Hz].
  apply in_range_iff in Hz. apply in_range_iff.
  destruct (pow2_half (width T) Hw) as [Hp Hpos].
  assert (Hle : 2 ^ (width T - 1) <= 2 ^ 30) by (apply Z.pow_le_mono_r; lia).
  assert (H30 : 2 ^ 30 = 1073741824) by reflexivity.
  unfold min_value, max_value in *. simpl.
  destruct (is_signed T); lia.
Qed.

(** Two operands of one type are brought to its promotion, and so are
    an operand and an [int], or an operand and one already promoted. *)
Lemma common_same (T : int_type) : common T T = promote T.
Proof.
  unfold common. rewrite eqb_reflx, Z.ltb_irrefl. reflexivity.
Qed.

Lemma common_int_r (T : int_type) : 0 < width T -> common T int = promote T.
Proof.
  intros Hw. pose proof (promote_width T Hw) as H32. unfold common.
  change (promote int) with int. simpl.
  destruct (is_signed (promote T)) eqn:Hs; simpl.
  - destruct (Z.ltb_spec (width (promote T)) 32); [lia | reflexivity].
  - destruct (Z.leb_spec 32 (width (promote T))); [reflexivity | lia].
Qed.

Lemma common_promote_l (T : int_type) : common (promote T) T = promote T.
Proof. unfold common. rewrite promote_idem, eqb_reflx, Z.ltb_irrefl. reflexivity. Qed.

Lemma result_in_range (C : int_type) (r : Z) :
  0 < width C -> in_range C r = true -> result C r = Some r.
Proof.
  intros Hw Hr. unfold result, assert. destruct (is_signed C) eqn:Hs.
  - now rewrite Hr.
  - f_equal. apply in_range_iff in Hr. unfold min_value, max_value in Hr.
    rewrite Hs in Hr. apply Z.mod_small. lia.
Qed.

Section OneType.
Context (T : int_type) (Hw : 0 < width T).

Lemma promoted_positive : 0 < width (promote T).
Proof. pose proof (promote_width T Hw). lia. Qed.

Lemma convert_promote (z : Z) : in_range T z = true -> convert (promote T) z = z.
Proof.
  intros Hz. apply convert_in_range; [apply promoted_positive|].
  now apply in_range_promote.
Qed.

(** On operands of type [T], an operation whose value the promoted type
    holds has that value. *)
Lemma c_add_exact (a b : Z) :
  in_range T a = true -> in_range T b = true -> in_range (promote T) (a + b) = true ->
  c_add T T a b = Some (a + b).
Proof.
  intros Ha Hb Hab. unfold c_add. rewrite common_same.
  rewrite !convert_promote by assumption.
  apply result_in_range; [apply promoted_positive | exact Hab].
Qed.

Lemma c_sub_exact (a b : Z) :
  in_range T a = true -> in_range T b = true -> in_range (promote T) (a - b) = true ->
  c_sub T T a b = Some (a - b).
Proof.
  intros Ha Hb Hab. unfold c_sub. rewrite common_same.
  rewrite !convert_promote by assumption.
  apply result_in_range; [apply promoted_positive | exact Hab].
Qed.

Lemma c_div_exact (d s : Z) :
  in_range (promote T) d = true -> in_range T s = true -> s <> 0 ->
  in_range (promote T) (Z.quot d s) = true ->
  c_div (common T T) T d s = Some (Z.quot d s).
Proof.
  intros Hd Hs Hnz Hq. unfold c_div. rewrite common_same, common_promote_l.
  rewrite (convert_promote s Hs).
  rewrite (convert_in_range (promote T) d promoted_positive Hd).
  unfold assert. rewrite (proj2 (Z.eqb_neq _ _) Hnz). simpl.
  apply result_in_range; [apply promoted_positive | exact Hq].
Qed.

(** The comparisons of operands of type [T] are those of their values. *)
Lemma c_lt_exact (a b : Z) :
  in_range T a = true -> in_range T b = true -> c_lt T T a b = (a <? b).
Proof.
  intros Ha Hb. unfold c_lt. rewrite common_same.
  now rewrite !convert_promote.
Qed.

Lemma c_eq_exact (a b : Z) :
  in_range T a = true -> in_range T b = true -> c_eq T T a b = (a =? b).
Proof.
  intros Ha Hb. unfold c_eq. rewrite common_same.
  now rewrite !convert_promote.
Qed.

Lemma c_gt_zero_exact (a : Z) :
  in_range T a = true -> c_gt T int a 0 = (a >? 0).
Proof.
  intros Ha. unfold c_gt. rewrite (common_int_r T Hw).
  rewrite (convert_promote a Ha).
  rewrite (convert_in_range (promote T) 0 promoted_positive); [reflexivity|].
  apply in_range_promote; [exact Hw|]. apply in_range_iff.
  destruct (pow2_half (width T) Hw) as [Hp Hpos].
  unfold min_value, max_value. destruct (is_signed T); lia.
Qed.

End OneType.

End IntegerSpec.

(** ** The range adaptor on the integer types of C++ *)

Module RangeIntSpec.

Import Integer RangeInt.

Section OneType.
Context (T : int_type) (Hw : 0 < width T).

(** [++it] where the value after it is one of [T]. *)
Lemma op_incr_exact (v s : Z) :
  in_range T v = true -> in_range T s = true -> in_range T (v + s) = true ->
  op_incr T {| value_ := v; step_ := s |} = Some {| value_ := v + s; step_ := s |}.
Proof.
  intros Hv Hs Hvs. unfold op_incr; simpl.
  rewrite (IntegerSpec.c_add_exact T Hw v s Hv Hs)
    by now apply IntegerSpec.in_range_promote.
  simpl. now rewrite IntegerSpec.convert_in_range.
Qed.

(** [x != y] on cursors of one step. *)
Lemma op_ne_exact (v w s : Z) :
  in_range T v = true -> in_range T w = true -> in_range T s = true ->
  op_ne T {| value_ := v; step_ := s |} {| value_ := w; step_ := s |} =
  Some (if s >? 0 then v <? w else w <=? v).
Proof.
  intros Hv Hw' Hs. unfold op_ne, op_eq, assert; simpl.
  rewrite (IntegerSpec.c_eq_exact T Hw s s Hs Hs), Z.eqb_refl.
  rewrite (IntegerSpec.c_gt_zero_exact T Hw s Hs).
  rewrite !(IntegerSpec.c_lt_exact T Hw), (IntegerSpec.c_eq_exact T Hw) by assumption.
  simpl. f_equal. destruct (s >? 0).
  - destruct (Z.ltb_spec w v); destruct (Z.eqb_spec w v);
      destruct (Z.ltb_spec v w); simpl; try reflexivity; lia.
  - destruct (Z.ltb_spec v w); destruct (Z.leb_spec w v); simpl;
      try reflexivity; lia.
Qed.

(** [x - y] where the difference and the quotient are held by the
    promoted type, and the quotient by [std::ptrdiff_t]. *)
Lemma op_minus_exact (v w s : Z) :
  in_range T v = true -> in_range T w = true -> in_range T s = true -> s <> 0 ->
  in_range (promote T) (v - w) = true ->
  in_range (promote T) (Z.quot (v - w) s) = true ->
  in_range ptrdiff_t (Z.quot (v - w) s) = true ->
  op_minus T {| value_ := v; step_ := s |} {| value_ := w; step_ := s |} =
  Some (Z.quot (v - w) s).
Proof.
  intros Hv Hw' Hs Hnz Hd Hq Hq'. unfold op_minus, assert; simpl.
  rewrite (IntegerSpec.c_eq_exact T Hw s s Hs Hs), Z.eqb_refl.
  rewrite (IntegerSpec.c_sub_exact T Hw v w Hv Hw' Hd). simpl.
  rewrite (IntegerSpec.c_div_exact T Hw (v - w) s Hd Hs Hnz Hq). simpl.
  rewrite IntegerSpec.convert_in_range; [reflexivity | reflexivity | exact Hq'].
Qed.

Lemma iter_next (first step : Z) (n : nat) :
  in_range T step = true ->
  (forall i, (i <= n)%nat -> in_range T (first + Z.of_nat i * step) = true) ->
  forall i, (i <= n)%nat ->
    Nat.iter i (next T) (Some {| value_ := first; step_ := step |}) =
    Some {| value_ := first + Z.of_nat i * step; step_ := step |}.
Proof.
  intros Hs Hin i. induction i as [|i IH]; intros Hi.
  - simpl. do 2 f_equal. lia.
  - rewrite Nat.iter_succ, IH by lia. cbn [next bind].
    assert (Hnext : first + Z.of_nat (S i) * step = first + Z.of_nat i * step + step)
      by lia.
    rewrite Hnext. apply op_incr_exact; [apply Hin; lia | exact Hs |].
    rewrite <- Hnext. now apply Hin.
Qed.

(** The loop whose cursor stays in [T], with the test holding at the
    first [n] values and failing at the next. *)
Lemma elements_steps_int (first last step : Z) (n fuel : nat) :
  in_range T last = true -> in_range T step = true ->
  (forall i, (i <= n)%nat -> in_range T (first + Z.of_nat i * step) = true) ->
  (n < fuel)%nat ->
  (forall i, (i < n)%nat ->
     (if step >? 0 then first + Z.of_nat i * step <? last
      else last <=? first + Z.of_nat i * step) = true) ->
  (if step >? 0 then first + Z.of_nat n * step <? last
   else last <=? first + Z.of_nat n * step) = false ->
  elements T fuel (range first last step) =
  Some (map (fun i => first + Z.of_nat i * step) (seq 0 n)).
Proof.
  intros Hl Hs Hin Hfuel Hgo Hstop. unfold elements, begin_, end_, range; simpl.
  rewrite (traverse_steps (differs T) (next T) _ n _ fuel Hfuel).
  - cbn [bind].
    rewrite (sequence_map_total _
               (fun i => {| value_ := first + Z.of_nat i * step; step_ := step |})).
    + simpl. now rewrite map_map.
    + intros i Hi. apply in_seq in Hi. apply (iter_next first step n); [assumption | assumption | lia].
  - intros i Hi. rewrite (iter_next first step n Hs Hin i) by lia. simpl.
    rewrite op_ne_exact; [now rewrite Hgo | apply Hin; lia | assumption | assumption].
  - rewrite (iter_next first step n Hs Hin n) by lia. simpl.
    rewrite op_ne_exact; [now rewrite Hstop | apply Hin; lia | assumption | assumption].
Qed.

Lemma in_range_between (a b z : Z) :
  in_range T a = true -> in_range T b = true -> a <= z <= b ->
  in_range T z = true.
Proof.
  intros Ha Hb Hz. apply IntegerSpec.in_range_iff in Ha, Hb.
  apply IntegerSpec.in_range_iff. lia.
Qed.

Lemma elements_positive_step_int (first last step : Z) (fuel : nat) :
  in_range T first = true -> in_range T last = true -> in_range T step = true ->
  first < last -> 0 < step ->
  let n := Z.to_nat (Range.ceil_div (last - first) step) in
  first + Z.of_nat n * step <= max_value T ->
  (n < fuel)%nat ->
  elements T fuel (range first last step) =
  Some (map (fun i => first + Z.of_nat i * step) (seq 0 n)).
Proof.
  intros Hf Hl Hs Hlt Hstep n Hmax Hfuel.
  pose proof (RangeSpec.ceil_div_bounds (last - first) step Hstep) as Hb.
  assert (Hn : Z.of_nat n = Range.ceil_div (last - first) step) by (unfold n; nia).
  rewrite <- Hn in Hb.
  apply elements_steps_int; try assumption.
  - intros i Hi. apply IntegerSpec.in_range_iff.
    apply IntegerSpec.in_range_iff in Hf. nia.
  - intros i Hi. destruct (Z.gtb_spec step 0); [|lia].
    apply Z.ltb_lt. nia.
  - destruct (Z.gtb_spec step 0); [|lia]. apply Z.ltb_ge. nia.
Qed.

End OneType.

(** C3, as it reads, at [range<unsigned char>(250, 255, 3)]: the value
    after 253 wraps around to 0, and the loop yields 87 values where
    [ceil((last - first) / step)] is 2; at [unsigned], 4294967290 + 10 is
    4, which [end()] at 4294967295 does not stop; at [int], 2147483646 + 2
    is undefined. *)
Lemma range_iteration_wraps :
  let uchar := {| is_signed := false; width := 8 |} in
  let unsigned := {| is_signed := false; width := 32 |} in
  in_range uchar 250 = true /\ in_range uchar 255 = true /\ in_range uchar 3 = true
  /\ 250 < 255 /\ 0 < 3
  /\ Range.ceil_div (255 - 250) 3 = 2
  /\ (exists l, elements uchar 100 (range 250 255 3) = Some l
        /\ length l = 87%nat /\ nth_error l 2 = Some 0)
  /\ op_incr unsigned {| value_ := 4294967290; step_ := 10 |} =
     Some {| value_ := 4; step_ := 10 |}
  /\ op_ne unsigned {| value_ := 4; step_ := 10 |}
       {| value_ := 4294967295; step_ := 10 |} = Some true
  /\ op_incr int {| value_ := 2147483646; step_ := 2 |} = None.
Proof.
  cbv zeta. repeat split; try reflexivity.
  eexists. split; [vm_compute; reflexivity|]. split; reflexivity.
Qed.

(** C3, amended. For [first < last] and a positive [step] of an integer
    type, with [first + ceil((last - first) / step) * step], the value
    the loop stops at, no more than the greatest of the type, the loop
    over [range(first, last, step)] ends, and runs its body at the
    [ceil((last - first) / step)] values [first + i * step], in the
    order of [i]; there is at least one, and the last one is below
    [last]. *)
Theorem range_iteration_law (T : int_type) (first last step : Z) (fuel : nat) :
  0 < width T ->
  in_range T first = true -> in_range T last = true -> in_range T step = true ->
  first < last -> 0 < step ->
  let n := Z.to_nat (Range.ceil_div (last - first) step) in
  first + Z.of_nat n * step <= max_value T ->
  (n < fuel)%nat ->
  step * (Z.of_nat n - 1) < last - first <= step * Z.of_nat n
  /\ exists l,
       elements T fuel (range first last step) = Some l
       /\ length l = n
       /\ (forall i, (i < n)%nat -> nth_error l i = Some (first + Z.of_nat i * step))
       /\ (0 < n)%nat
       /\ List.last l first = first + (Z.of_nat n - 1) * step
       /\ List.last l first < last.
Proof.
  intros Hw Hf Hl Hs Hlt Hstep n Hmax Hfuel.
  pose proof (RangeSpec.ceil_div_bounds (last - first) step Hstep) as Hb.
  assert (Hn : Z.of_nat n = Range.ceil_div (last - first) step) by (unfold n; nia).
  rewrite <- Hn in Hb. split; [exact Hb|].
  eexists. split; [apply elements_positive_step_int; assumption|]. fold n.
  assert (Hlast : List.last (map (fun i => first + Z.of_nat i * step) (seq 0 n)) first
                  = first + (Z.of_nat n - 1) * step).
  { destruct n as [|m]; [nia|].
    rewrite seq_S, map_app. cbn [map]. rewrite last_last.
    cbn [Nat.add]. lia. }
  repeat split.
  - now rewrite length_map, length_seq.
  - intros i Hi. rewrite nth_error_map, nth_error_seq.
    destruct (Nat.ltb_spec i n); [reflexivity | lia].
  - nia.
  - exact Hlast.
  - rewrite Hlast. nia.
Qed.

Lemma range_iteration_law_witness :
  exists l, elements int 5 (range 0 10 3) = Some l /\ length l = 4%nat
    /\ List.last l 0 < 10.
Proof.
  destruct (range_iteration_law int 0 10 3 5)
    as (_ & l & Hl & Hlen & _ & _ & _ & Hlast);
    try reflexivity; try (vm_compute; lia); try (simpl; lia);
    try (vm_compute; discriminate).
  exists l. split; [exact Hl|]. split; [exact Hlen | exact Hlast].
Defined.

(** C10, as it reads, at [range<int>(0, -3, 2)]: [end() - begin()] is
    -1, the quotient truncated toward zero, where the floor of -3/2 is
    -2, and the loop runs its body at no value; and at
    [range<std::size_t>(0, 10, 3)]: [begin() - end()] is
    6148914691236517202, the difference having wrapped around, where
    [(0 - 10) / 3] truncated is -3. *)
Lemma range_distance_floor_counterexample :
  let size_t := {| is_signed := false; width := 64 |} in
  let p := range 0 (-3) 2 in
  let q := range 0 10 3 in
  (0 < proxy_step_ p
   /\ ~ (proxy_step_ p | last_ p - first_ p)
   /\ op_minus int (end_ p) (begin_ p) = Some (-1)
   /\ (last_ p - first_ p) / proxy_step_ p = -2
   /\ op_minus int (end_ p) (begin_ p) <> Some ((last_ p - first_ p) / proxy_step_ p)
   /\ elements int 1 p = Some [])
  /\ (step_ (begin_ q) = step_ (end_ q) /\ step_ (begin_ q) <> 0
      /\ op_minus size_t (begin_ q) (end_ q) = Some 6148914691236517202
      /\ Z.quot (value_ (begin_ q) - value_ (end_ q)) (step_ (begin_ q)) = -3).
Proof.
  cbv zeta. split.
  - repeat split; try reflexivity; try (simpl; lia); try discriminate.
    intros [k Hk]. simpl in Hk. lia.
  - repeat split; try reflexivity. simpl. lia.
Qed.

(** C10, amended. On cursors of an integer type and of one step [s], not
    zero, where [x.value - y.value] and its quotient by [s] are values
    of the promoted type, and the quotient one of [std::ptrdiff_t],
    [x - y] is [(x.value - y.value) / s] truncated toward zero; for
    [first < last] and a positive [step] that does not divide
    [last - first], with [last - first] a value of the promoted type, its
    quotient one of [std::ptrdiff_t], and the value the loop stops at no
    more than the greatest of the type, [end() - begin()] is the floor of
    [(last - first) / step], one less than the
    [ceil((last - first) / step)] values the loop runs its body at. *)
Theorem range_distance_truncates (T : int_type) (x y : range_iterator)
    (first last step : Z) (fuel : nat) :
  0 < width T ->
  in_range T (value_ x) = true -> in_range T (value_ y) = true ->
  in_range T (step_ x) = true ->
  step_ x = step_ y -> step_ x <> 0 ->
  in_range (promote T) (value_ x - value_ y) = true ->
  in_range (promote T) (Z.quot (value_ x - value_ y) (step_ x)) = true ->
  in_range ptrdiff_t (Z.quot (value_ x - value_ y) (step_ x)) = true ->
  in_range T first = true -> in_range T last = true -> in_range T step = true ->
  first < last -> 0 < step -> ~ (step | last - first) ->
  in_range (promote T) (last - first) = true ->
  in_range ptrdiff_t ((last - first) / step) = true ->
  first + Z.of_nat (Z.to_nat (Range.ceil_div (last - first) step)) * step
    <= max_value T ->
  (Z.to_nat (Range.ceil_div (last - first) step) < fuel)%nat ->
  op_minus T x y = Some (Z.quot (value_ x - value_ y) (step_ x))
  /\ op_minus T (end_ (range first last step)) (begin_ (range first last step)) =
     Some ((last - first) / step)
  /\ (last - first) / step = Range.ceil_div (last - first) step - 1
  /\ exists l,
       elements T fuel (range first last step) = Some l
       /\ Z.of_nat (length l) = (last - first) / step + 1.
Proof.
  intros Hw Hxv Hyv Hxs Hs Hnz Hd Hq Hq' Hf Hl Hst Hlt Hstep Hdiv Hd' Hq'' Hmax Hfuel.
  split.
  { destruct x as [xv xs], y as [yv ys]; simpl in *. subst ys.
    now apply op_minus_exact. }
  assert (Hceil : (last - first) / step = Range.ceil_div (last - first) step - 1).
  { pose proof (RangeSpec.ceil_div_bounds (last - first) step Hstep) as Hb.
    pose proof (Z.mul_div_le (last - first) step Hstep).
    pose proof (Z.mul_succ_div_gt (last - first) step Hstep).
    assert (last - first <> step * Range.ceil_div (last - first) step).
    { intros Heq. apply Hdiv. exists (Range.ceil_div (last - first) step). lia. }
    nia. }
  assert (Hquot : Z.quot (last - first) step = (last - first) / step)
    by (apply Z.quot_div_nonneg; lia).
  split; [|split; [exact Hceil|]].
  - unfold end_, begin_, range; simpl.
    rewrite op_minus_exact; rewrite ?Hquot; try assumption; try lia; [reflexivity|].
    apply IntegerSpec.in_range_iff. apply IntegerSpec.in_range_iff in Hd'.
    pose proof (Z.mul_div_le (last - first) step Hstep).
    assert (0 <= (last - first) / step) by (apply Z.div_pos; lia).
    split; [|nia].
    pose proof (IntegerSpec.promote_width T Hw).
    destruct (IntegerSpec.pow2_half (width (promote T)) ltac:(lia)).
    unfold min_value. destruct (is_signed (promote T)); lia.
  - eexists. split; [apply elements_positive_step_int; assumption|].
    rewrite length_map, length_seq, Hceil.
    pose proof (RangeSpec.ceil_div_bounds (last - first) step Hstep). nia.
Qed.

Lemma range_distance_truncates_witness :
  op_minus int (end_ (range 0 10 3)) (begin_ (range 0 10 3)) = Some 3
  /\ exists l, elements int 5 (range 0 10 3) = Some l /\ Z.of_nat (length l) = 4.
Proof.
  destruct (range_distance_truncates int
              {| value_ := 7; step_ := -2 |} {| value_ := 0; step_ := -2 |}
              0 10 3 5) as (_ & Hd & _ & l & Hl & Hlen);
    try reflexivity; try (simpl; lia); try (vm_compute; lia);
    try (vm_compute; discriminate).
  - intros [k Hk]. lia.
  - split; [exact Hd|]. exists l. split; [exact Hl | exact Hlen].
Defined.

End RangeIntSpec.

(** ** More of the range adaptor on the integer types of C++ *)

Module RangeIntFacts.

Import Integer RangeInt.

(** With a negative step and [last] not above [first], both of a signed
    type, and the value the loop stops at, the first below [last], no
    less than the least of the type, the loop yields the values
    [first + i * step] that are not below [last]: there are
    [(first - last) / (-step) + 1] of them, [first] the first, and [last]
    itself the last when the steps reach it. *)
Theorem range_negative_step (T : int_type) (first last step : Z) (fuel : nat) :
  0 < width T ->
  in_range T first = true -> in_range T last = true -> in_range T step = true ->
  step < 0 -> last <= first ->
  let n := Z.to_nat ((first - last) / (- step) + 1) in
  min_value T <= first + Z.of_nat n * step ->
  (n < fuel)%nat ->
  elements T fuel (range first last step) =
    Some (map (fun i => first + Z.of_nat i * step) (seq 0 n))
  /\ (0 < n)%nat
  /\ last <= first + (Z.of_nat n - 1) * step < last - step
  /\ ((step | first - last) -> first + (Z.of_nat n - 1) * step = last).
Proof.
  intros Hw Hf Hl Hst Hstep Hle n Hmin Hfuel.
  assert (Hs : 0 < - step) by lia.
  pose proof (Z.mul_div_le (first - last) (- step) Hs) as Hlo.
  pose proof (Z.mul_succ_div_gt (first - last) (- step) Hs) as Hhi.
  assert (Hq : 0 <= (first - last) / (- step)) by (apply Z.div_pos; lia).
  assert (Hn : Z.of_nat n = (first - last) / (- step) + 1) by (unfold n; lia).
  split; [|split; [lia|split; [nia|]]].
  - apply RangeIntSpec.elements_steps_int; try assumption.
    + intros i Hi. apply IntegerSpec.in_range_iff.
      apply IntegerSpec.in_range_iff in Hf. nia.
    + intros i Hi. destruct (Z.gtb_spec step 0); [lia|]. apply Z.leb_le. nia.
    + destruct (Z.gtb_spec step 0); [lia|]. apply Z.leb_gt. nia.
  - intros [k Hk]. rewrite Hn.
    assert (Hk' : first - last = (- k) * (- step)) by lia.
    rewrite Hk', Z.div_mul by lia. lia.
Qed.

Lemma range_negative_step_witness :
  elements int 5 (range 3 0 (-1)) = Some [3; 2; 1; 0]
  /\ elements int 5 (range 7 0 (-3)) = Some [7; 4; 1].
Proof.
  split.
  - refine (proj1 (range_negative_step int 3 0 (-1) 5 _ _ _ _ _ _ _ _));
      try reflexivity; try lia; try (vm_compute; lia); try (vm_compute; discriminate).
  - refine (proj1 (range_negative_step int 7 0 (-3) 5 _ _ _ _ _ _ _ _));
      try reflexivity; try lia; try (vm_compute; lia); try (vm_compute; discriminate).
Defined.

(** *** The operators that take a [difference_type] *)

Lemma pow2_63 : 2 ^ 63 = 9223372036854775808.
Proof. reflexivity. Qed.

Lemma pow2_64 : 2 ^ 64 = 18446744073709551616.
Proof. reflexivity. Qed.

(** A type of 64 bits at most is [unsigned] of 64 bits, or all its values
    are values of [std::ptrdiff_t]. *)
Lemma unsigned_64_or_narrower (T : int_type) :
  width T <= 64 ->
  T = {| is_signed := false; width := 64 |} \/ (is_signed T = true \/ width T < 64).
Proof.
  destruct T as [[|] w]; simpl; intros Hw64.
  - right. now left.
  - destruct (Z.eq_dec w 64) as [-> | Hne]; [now left | right; right; lia].
Qed.

Section Narrower.
Context (T : int_type) (Hw : 0 < width T) (Hw64 : width T <= 64)
        (Hnarrow : is_signed T = true \/ width T < 64).

Lemma common_ptrdiff_l : common ptrdiff_t T = ptrdiff_t.
Proof.
  destruct T as [sg w]; simpl in *. unfold common, promote; simpl.
  destruct (Z.ltb_spec w 32); simpl; [reflexivity|].
  destruct sg; simpl.
  - destruct (Z.ltb_spec 64 w); [lia | reflexivity].
  - destruct (Z.leb_spec 64 w); [|reflexivity]. destruct Hnarrow; [discriminate | lia].
Qed.

Lemma common_ptrdiff_r : common T ptrdiff_t = ptrdiff_t.
Proof.
  destruct T as [sg w]; simpl in *. unfold common, promote; simpl.
  destruct (Z.ltb_spec w 32); simpl; [reflexivity|].
  destruct sg; simpl.
  - destruct (Z.ltb_spec w 64); [reflexivity|]. unfold ptrdiff_t. f_equal. lia.
  - destruct (Z.leb_spec 64 w); [|reflexivity]. destruct Hnarrow; [discriminate | lia].
Qed.

Lemma in_range_ptrdiff (z : Z) :
  in_range T z = true -> in_range ptrdiff_t z = true.
Proof.
  intros Hz. apply IntegerSpec.in_range_iff in Hz. apply IntegerSpec.in_range_iff.
  destruct (IntegerSpec.pow2_half (width T) Hw) as [Hp Hpos].
  pose proof pow2_63 as H63.
  unfold min_value, max_value in *. simpl.
  destruct (is_signed T) eqn:Hsg.
  - assert (Hle : 2 ^ (width T - 1) <= 2 ^ 63) by (apply Z.pow_le_mono_r; lia).
    rewrite H63 in Hle. lia.
  - assert (Hlt : width T < 64) by (destruct Hnarrow as [H | H]; [congruence | exact H]).
    assert (Hle : 2 ^ width T <= 2 ^ 63) by (apply Z.pow_le_mono_r; lia).
    rewrite H63 in Hle. lia.
Qed.

(** [a + n * s] and [a - n * s], [n] a [difference_type], where the
    product is a value of [std::ptrdiff_t] and the sum one of [T]. *)
Lemma scaled_add_narrower (a s n : Z) :
  in_range T a = true -> in_range T s = true -> in_range ptrdiff_t n = true ->
  in_range ptrdiff_t (n * s) = true -> in_range T (a + n * s) = true ->
  (m <- c_mul ptrdiff_t T n s ;;
   v <- c_add T (common ptrdiff_t T) a m ;; Some (convert T v)) = Some (a + n * s).
Proof.
  intros Ha Hs Hn Hns Hans. unfold c_mul, c_add.
  rewrite common_ptrdiff_l, common_ptrdiff_r.
  rewrite !(IntegerSpec.convert_in_range ptrdiff_t) by
    (try reflexivity; try assumption; now apply in_range_ptrdiff).
  rewrite (IntegerSpec.result_in_range ptrdiff_t (n * s)) by (reflexivity || assumption).
  cbn [bind].
  rewrite (IntegerSpec.convert_in_range ptrdiff_t (n * s)) by (reflexivity || assumption).
  rewrite (IntegerSpec.result_in_range ptrdiff_t (a + n * s))
    by (try reflexivity; now apply in_range_ptrdiff).
  cbn [bind]. now rewrite IntegerSpec.convert_in_range.
Qed.

Lemma scaled_sub_narrower (a s n : Z) :
  in_range T a = true -> in_range T s = true -> in_range ptrdiff_t n = true ->
  in_range ptrdiff_t (n * s) = true -> in_range T (a - n * s) = true ->
  (m <- c_mul ptrdiff_t T n s ;;
   v <- c_sub T (common ptrdiff_t T) a m ;; Some (convert T v)) = Some (a - n * s).
Proof.
  intros Ha Hs Hn Hns Hans. unfold c_mul, c_sub.
  rewrite common_ptrdiff_l, common_ptrdiff_r.
  rewrite !(IntegerSpec.convert_in_range ptrdiff_t) by
    (try reflexivity; try assumption; now apply in_range_ptrdiff).
  rewrite (IntegerSpec.result_in_range ptrdiff_t (n * s)) by (reflexivity || assumption).
  cbn [bind].
  rewrite (IntegerSpec.convert_in_range ptrdiff_t (n * s)) by (reflexivity || assumption).
  rewrite (IntegerSpec.result_in_range ptrdiff_t (a - n * s))
    by (try reflexivity; now apply in_range_ptrdiff).
  cbn [bind]. now rewrite IntegerSpec.convert_in_range.
Qed.

End Narrower.

Lemma promote_narrower (T : int_type) :
  0 < width T -> width T <= 64 -> is_signed T = true \/ width T < 64 ->
  0 < width (promote T) /\ width (promote T) <= 64
  /\ (is_signed (promote T) = true \/ width (promote T) < 64).
Proof.
  intros Hw Hw64 Hnarrow. unfold promote. simpl.
  destruct (Z.ltb_spec (width T) 32); simpl; [lia|].
  repeat split; try lia. exact Hnarrow.
Qed.

(** At [unsigned] of 64 bits every step of [a + n * s] and [a - n * s]
    is modulo [2 ^ 64]. *)
Lemma scaled_add_unsigned_64 (a s n : Z) :
  let U := {| is_signed := false; width := 64 |} in
  (m <- c_mul ptrdiff_t U n s ;;
   v <- c_add U (common ptrdiff_t U) a m ;; Some (convert U v)) =
  Some ((a + n * s) mod 2 ^ 64).
Proof.
  intros U. change (common ptrdiff_t U) with U.
  unfold c_mul, c_add. change (common ptrdiff_t U) with U. change (common U U) with U.
  unfold result, convert. cbn [is_signed width U bind]. f_equal.
  assert (HM : 2 ^ 64 <> 0) by (rewrite pow2_64; lia).
  rewrite !Z.mod_mod by exact HM.
  rewrite <- Z.mul_mod, <- Z.add_mod by exact HM. reflexivity.
Qed.

Lemma scaled_sub_unsigned_64 (a s n : Z) :
  let U := {| is_signed := false; width := 64 |} in
  (m <- c_mul ptrdiff_t U n s ;;
   v <- c_sub U (common ptrdiff_t U) a m ;; Some (convert U v)) =
  Some ((a - n * s) mod 2 ^ 64).
Proof.
  intros U. change (common ptrdiff_t U) with U.
  unfold c_mul, c_sub. change (common ptrdiff_t U) with U. change (common U U) with U.
  unfold result, convert. cbn [is_signed width U bind]. f_equal.
  assert (HM : 2 ^ 64 <> 0) by (rewrite pow2_64; lia).
  rewrite !Z.mod_mod by exact HM.
  rewrite <- Z.mul_mod, <- Zminus_mod by exact HM. reflexivity.
Qed.

Lemma convert_ptrdiff_mod (z : Z) : convert ptrdiff_t z mod 2 ^ 64 = z mod 2 ^ 64.
Proof.
  unfold convert. cbn [is_signed width ptrdiff_t].
  rewrite Zminus_mod, Z.mod_mod by (rewrite pow2_64; lia).
  rewrite <- Zminus_mod. f_equal. lia.
Qed.

(** [a + n * s] and [a - n * s], [n] a [difference_type], in a type of 64
    bits at most, where the product is a value of [std::ptrdiff_t], but
    for [unsigned] of 64 bits, and the sum one of [T]. *)
Lemma scaled_add_exact (T : int_type) (a s n : Z) :
  0 < width T -> width T <= 64 ->
  in_range T a = true -> in_range T s = true -> in_range ptrdiff_t n = true ->
  (is_signed T = true \/ width T < 64 -> in_range ptrdiff_t (n * s) = true) ->
  in_range T (a + n * s) = true ->
  (m <- c_mul ptrdiff_t T n s ;;
   v <- c_add T (common ptrdiff_t T) a m ;; Some (convert T v)) = Some (a + n * s).
Proof.
  intros Hw Hw64 Ha Hs Hn Hns Hans.
  destruct (unsigned_64_or_narrower T Hw64) as [-> | Hnarrow].
  - rewrite scaled_add_unsigned_64. f_equal.
    apply IntegerSpec.in_range_iff in Hans. unfold min_value, max_value in Hans.
    simpl in Hans. apply Z.mod_small. rewrite pow2_64. lia.
  - apply scaled_add_narrower; auto.
Qed.

Lemma scaled_sub_exact (T : int_type) (a s n : Z) :
  0 < width T -> width T <= 64 ->
  in_range T a = true -> in_range T s = true -> in_range ptrdiff_t n = true ->
  (is_signed T = true \/ width T < 64 -> in_range ptrdiff_t (n * s) = true) ->
  in_range T (a - n * s) = true ->
  (m <- c_mul ptrdiff_t T n s ;;
   v <- c_sub T (common ptrdiff_t T) a m ;; Some (convert T v)) = Some (a - n * s).
Proof.
  intros Hw Hw64 Ha Hs Hn Hns Hans.
  destruct (unsigned_64_or_narrower T Hw64) as [-> | Hnarrow].
  - rewrite scaled_sub_unsigned_64. f_equal.
    apply IntegerSpec.in_range_iff in Hans. unfold min_value, max_value in Hans.
    simpl in Hans. apply Z.mod_small. rewrite pow2_64. lia.
  - apply scaled_sub_narrower; auto.
Qed.

(** In a type [T] of 64 bits at most, on a cursor of a step not zero and
    a [difference_type] [n], where [n * step] and [n] are values of the
    promoted type and [value + n * step] is one of [T]: [it += n] is at
    [value + n * step], which is what [it[n]] is and what [n] times [++it]
    come to for [n >= 0]; [-=] undoes [+=]; [(it += n) - it] is [n]; and
    [--] undoes [++] where [value + step] is a value of [T]. *)
Theorem range_advance_laws (T : int_type) (it : range_iterator) (n : Z) (k : nat) :
  0 < width T -> width T <= 64 ->
  in_range T (value_ it) = true -> in_range T (step_ it) = true ->
  step_ it <> 0 ->
  in_range ptrdiff_t n = true ->
  in_range (promote T) (n * step_ it) = true ->
  in_range (promote T) n = true ->
  in_range T (value_ it + n * step_ it) = true ->
  let it' := {| value_ := value_ it + n * step_ it; step_ := step_ it |} in
  op_plus_assign T it n = Some it'
  /\ op_minus_assign T it' n = Some it
  /\ op_index T it n = Some (value_ it')
  /\ op_minus T it' it = Some n
  /\ (Z.of_nat k = n -> Nat.iter k (next T) (Some it) = op_plus_assign T it n)
  /\ (in_range T (value_ it + step_ it) = true ->
      (x <- op_incr T it ;; op_decr T x) = Some it).
Proof.
  intros Hw Hw64 Ha Hs Hnz Hn Hns Hn' Hans it'.
  destruct it as [a s]; simpl in *.
  assert (Hns64 : is_signed T = true \/ width T < 64 -> in_range ptrdiff_t (n * s) = true).
  { intros Hnarrow.
    destruct (promote_narrower T Hw Hw64 Hnarrow) as (HwP & HwP64 & HnP).
    now apply (in_range_ptrdiff (promote T)). }
  assert (Hplus : op_plus_assign T {| value_ := a; step_ := s |} n = Some it').
  { unfold op_plus_assign; simpl.
    pose proof (scaled_add_exact T a s n Hw Hw64 Ha Hs Hn Hns64 Hans) as H.
    destruct (c_mul ptrdiff_t T n s) as [m|]; [|discriminate]. cbn [bind] in *.
    destruct (c_add T (common ptrdiff_t T) a m) as [v|]; [|discriminate].
    cbn [bind] in *. injection H as ->. reflexivity. }
  split; [exact Hplus|]. split; [|split; [|split; [|split]]].
  - unfold op_minus_assign, it'; simpl.
    assert (Hback : in_range T (a + n * s - n * s) = true)
      by (replace (a + n * s - n * s) with a by lia; exact Ha).
    pose proof (scaled_sub_exact T (a + n * s) s n Hw Hw64 Hans Hs Hn Hns64 Hback) as H.
    destruct (c_mul ptrdiff_t T n s) as [m|]; [|discriminate]. cbn [bind] in *.
    destruct (c_sub T (common ptrdiff_t T) (a + n * s) m) as [v|]; [|discriminate].
    cbn [bind] in *. injection H as ->. do 2 f_equal. lia.
  - unfold op_index; simpl.
    exact (scaled_add_exact T a s n Hw Hw64 Ha Hs Hn Hns64 Hans).
  - unfold it'. replace n with (Z.quot (a + n * s - a) s) at 2
      by (replace (a + n * s - a) with (n * s) by lia; now apply Z.quot_mul).
    apply RangeIntSpec.op_minus_exact; try assumption;
      replace (a + n * s - a) with (n * s) by lia; rewrite ?Z.quot_mul by assumption;
      assumption.
  - intros Hk. rewrite Hplus. unfold it'.
    rewrite (RangeIntSpec.iter_next T Hw a s k Hs); [now rewrite Hk | | lia].
    intros i Hi. apply IntegerSpec.in_range_iff.
    apply IntegerSpec.in_range_iff in Ha, Hans. subst n.
    destruct (Z_lt_le_dec s 0); nia.
  - intros Has. rewrite (RangeIntSpec.op_incr_exact T Hw a s Ha Hs Has). cbn [bind].
    unfold op_decr; simpl.
    rewrite (IntegerSpec.c_sub_exact T Hw (a + s) s Has Hs).
    + simpl. replace (a + s - s) with a by lia.
      now rewrite IntegerSpec.convert_in_range.
    + replace (a + s - s) with a by lia. now apply IntegerSpec.in_range_promote.
Qed.

Lemma range_advance_laws_witness :
  op_minus int {| value_ := 4 + 5 * -3; step_ := -3 |}
               {| value_ := 4; step_ := -3 |} = Some 5
  /\ op_index int {| value_ := 4; step_ := -3 |} 5 = Some (4 + 5 * -3).
Proof.
  pose proof (range_advance_laws int {| value_ := 4; step_ := -3 |} 5 0) as H.
  simpl in H.
  destruct H as (_ & _ & Hi & Hm & _);
    try reflexivity; try lia.
  split; [exact Hm | exact Hi].
Defined.

(** In a type [T] of 64 bits at most, where [n * step] and
    [n * step * step] are values of [std::ptrdiff_t] and
    [value + n * step] and [value + n * step * step] are values of [T]:
    [x + n] is not [x += n] but [x += n * step], at
    [value + n * step * step]; it is at the value [x[n]] only for [n = 0]
    or a step of 0 or 1. *)
Theorem range_plus_scales_twice (T : int_type) (x : range_iterator) (n : Z) :
  0 < width T -> width T <= 64 ->
  in_range T (value_ x) = true -> in_range T (step_ x) = true ->
  in_range ptrdiff_t n = true ->
  in_range ptrdiff_t (n * step_ x) = true ->
  in_range ptrdiff_t (n * step_ x * step_ x) = true ->
  in_range T (value_ x + n * step_ x) = true ->
  in_range T (value_ x + n * step_ x * step_ x) = true ->
  op_plus T x n =
    Some {| value_ := value_ x + n * step_ x * step_ x; step_ := step_ x |}
  /\ op_plus T x n = op_plus_assign T x (n * step_ x)
  /\ op_index T x n = Some (value_ x + n * step_ x)
  /\ (option_map op_deref (op_plus T x n) = op_index T x n <->
      n = 0 \/ step_ x = 0 \/ step_ x = 1).
Proof.
  intros Hw Hw64 Ha Hs Hn Hns Hnss Hans Hanss.
  destruct x as [a s]; simpl in *.
  assert (Hassign : op_plus_assign T {| value_ := a; step_ := s |} (n * s) =
                    Some {| value_ := a + n * s * s; step_ := s |}).
  { unfold op_plus_assign; simpl.
    pose proof (scaled_add_exact T a s (n * s) Hw Hw64 Ha Hs Hns (fun _ => Hnss) Hanss)
      as H.
    destruct (c_mul ptrdiff_t T (n * s) s) as [m|]; [|discriminate]. cbn [bind] in *.
    destruct (c_add T (common ptrdiff_t T) a m) as [v|]; [|discriminate].
    cbn [bind] in *. injection H as ->. reflexivity. }
  assert (Hplus : op_plus T {| value_ := a; step_ := s |} n =
                  Some {| value_ := a + n * s * s; step_ := s |}).
  { destruct (unsigned_64_or_narrower T Hw64) as [-> | Hnarrow].
    - unfold op_plus, op_plus_assign; cbn [value_ step_].
      set (U := {| is_signed := false; width := 64 |}).
      assert (HM : 2 ^ 64 <> 0) by (rewrite pow2_64; lia).
      assert (Hm : c_mul ptrdiff_t U n s = Some ((n * s) mod 2 ^ 64)).
      { unfold c_mul. change (common ptrdiff_t U) with U.
        unfold result, convert. cbn [is_signed width U]. f_equal.
        now rewrite <- Z.mul_mod. }
      rewrite Hm. cbn [bind].
      pose proof (scaled_add_unsigned_64 a s (convert ptrdiff_t ((n * s) mod 2 ^ 64)))
        as H.
      cbv zeta in H. fold U in H.
      destruct (c_mul ptrdiff_t U (convert ptrdiff_t ((n * s) mod 2 ^ 64)) s) as [m|];
        [|discriminate].
      cbn [bind] in *.
      destruct (c_add U (common ptrdiff_t U) a m) as [v|]; [|discriminate].
      cbn [bind] in *. injection H as ->. do 2 f_equal.
      change (Z.pow_pos 2 64) with (2 ^ 64).
      rewrite Z.add_mod, (Z.mul_mod (convert ptrdiff_t _)) by exact HM.
      rewrite convert_ptrdiff_mod, Z.mod_mod by exact HM.
      rewrite <- Z.mul_mod, <- Z.add_mod by exact HM.
      apply IntegerSpec.in_range_iff in Hanss. unfold min_value, max_value in Hanss.
      simpl in Hanss. apply Z.mod_small. rewrite pow2_64. lia.
    - unfold op_plus; cbn [value_ step_].
      assert (Hm : c_mul ptrdiff_t T n s = Some (n * s)).
      { unfold c_mul. rewrite (common_ptrdiff_l T Hw Hw64 Hnarrow).
        rewrite !(IntegerSpec.convert_in_range ptrdiff_t) by
          (try reflexivity; try assumption; now apply (in_range_ptrdiff T)).
        apply IntegerSpec.result_in_range; [reflexivity | assumption]. }
      rewrite Hm. cbn [bind].
      rewrite (IntegerSpec.convert_in_range ptrdiff_t (n * s)) by (reflexivity || assumption).
      exact Hassign. }
  assert (Hindex : op_index T {| value_ := a; step_ := s |} n = Some (a + n * s)).
  { unfold op_index; simpl.
    exact (scaled_add_exact T a s n Hw Hw64 Ha Hs Hn (fun _ => Hns) Hans). }
  split; [exact Hplus|]. split; [now rewrite Hplus, Hassign|].
  split; [exact Hindex|].
  rewrite Hplus, Hindex. simpl. split.
  - intros Heq. injection Heq as Heq.
    assert (Hz : n * s * (s - 1) = 0) by lia.
    apply Z.mul_eq_0 in Hz as [Hz | Hz]; [apply Z.mul_eq_0 in Hz|]; lia.
  - intros [-> | [-> | ->]]; f_equal; lia.
Qed.

Lemma range_plus_scales_twice_witness :
  op_plus int {| value_ := 1; step_ := 3 |} 2 = Some {| value_ := 19; step_ := 3 |}
  /\ op_index int {| value_ := 1; step_ := 3 |} 2 = Some 7.
Proof.
  pose proof (range_plus_scales_twice int {| value_ := 1; step_ := 3 |} 2) as H.
  simpl in H.
  destruct H as (Hp & _ & Hi & _); try reflexivity; try lia.
  split; [exact Hp | exact Hi].
Defined.

End RangeIntFacts.

(** ** [min] and [max] on tuples of integers of C++ *)

Module TupleIntSpec.

Import Integer TupleInt.

Lemma fold_max_ge (r : list Z) (x : Z) :
  let m := fold_left (fun m v => if m <? v then v else m) r x in
  x <= m /\ (forall v, In v r -> v <= m) /\ (m = x \/ In m r).
Proof.
  revert x; induction r as [|v r IH]; intros x; simpl.
  - repeat split; [lia | intros v [] | now left].
  - destruct (IH (if x <? v then v else x)) as (Hle & Hall & Hin).
    destruct (Z.ltb_spec x v) as [Hxv | Hxv].
    + repeat split; [lia | | ].
      * intros u [<- | Hu]; [lia | now apply Hall].
      * destruct Hin as [-> | Hin]; right; [now left | now right].
    + repeat split; [lia | | ].
      * intros u [<- | Hu]; [lia | now apply Hall].
      * destruct Hin as [-> | Hin]; [now left | right; now right].
Qed.

Lemma int_type_eqb_refl (A : int_type) : int_type_eqb A A = true.
Proof. unfold int_type_eqb. now rewrite eqb_reflx, Z.eqb_refl. Qed.

(** The common type of elements of one type is that type. *)
Lemma common_type_same (T : int_type) (Ts : list int_type) :
  (forall A, In A Ts -> A = T) -> fold_left common_type2 Ts T = T.
Proof.
  induction Ts as [|A Ts IH]; intros Hall; simpl; [reflexivity|].
  rewrite (Hall A (or_introl eq_refl)). unfold common_type2 at 2.
  rewrite int_type_eqb_refl. apply IH. intros B HB. apply Hall. now right.
Qed.

(** [min] and [max] of a tuple with an element are the casts to the
    common type of elements of it, below and above the casts of all of
    them.  Where the common type holds every element, as it does on
    elements of one type, the casts change nothing: [min] and [max] are
    elements, below and above all the others, and [min] is the least of
    the values.  The cast of a negative element to an unsigned common
    type is great: on [(-1, 1u)], [min] is 1 and [max] is 4294967295.  On
    the empty tuple there is no common type. *)
Theorem min_max_bounds (x : int_type * Z) (r : list (int_type * Z)) :
  let t := x :: r in
  (exists R lo hi,
     common_type (map fst t) = Some R /\ min t = Some lo /\ max t = Some hi
     /\ In lo (map (fun v => convert R (snd v)) t)
     /\ In hi (map (fun v => convert R (snd v)) t)
     /\ (forall v, In v t -> lo <= convert R (snd v) <= hi)
     /\ ((forall v, In v t -> fst v = fst x) -> R = fst x)
     /\ (0 < width R -> (forall v, In v t -> in_range R (snd v) = true) ->
         In lo (map snd t) /\ In hi (map snd t)
         /\ (forall v, In v t -> lo <= snd v <= hi)
         /\ min t = Algorithm.min (map snd t)))
  /\ min [] = None /\ max [] = None
  /\ min [(int, -1); ({| is_signed := false; width := 32 |}, 1)] = Some 1
  /\ max [(int, -1); ({| is_signed := false; width := 32 |}, 1)] = Some 4294967295.
Proof.
  intros t. split; [|repeat split].
  set (R := fold_left common_type2 (map fst r) (fst x)).
  set (casts := map (fun v => convert R (snd v)) r).
  destruct (AlgorithmSpec.fold_min_le casts (convert R (snd x))) as (Hle & Hall & Hin).
  destruct (fold_max_ge casts (convert R (snd x))) as (Hge & Hall' & Hin').
  exists R. do 2 eexists.
  split; [reflexivity|]. split; [reflexivity|]. split; [reflexivity|].
  fold R. cbn [map]. fold casts.
  set (lo := fold_left (fun m v => if v <? m then v else m) casts
               (convert R (snd x))) in *.
  set (hi := fold_left (fun m v => if m <? v then v else m) casts
               (convert R (snd x))) in *.
  assert (Hlo : In lo (convert R (snd x) :: casts))
    by (destruct Hin as [-> | Hin]; [now left | now right]).
  assert (Hhi : In hi (convert R (snd x) :: casts))
    by (destruct Hin' as [-> | Hin']; [now left | now right]).
  assert (Hbounds : forall v, In v t -> lo <= convert R (snd v) <= hi).
  { intros v [<- | Hv]; [lia|].
    assert (In (convert R (snd v)) casts)
      by (unfold casts; apply in_map_iff; now exists v).
    split; [now apply Hall | now apply Hall']. }
  split; [exact Hlo|]. split; [exact Hhi|]. split; [exact Hbounds|]. split.
  - intros Hsame. unfold R. apply common_type_same.
    intros A HA. apply in_map_iff in HA as (v & <- & Hv). apply Hsame. now right.
  - intros HwR Hrange.
    assert (Hid : map (fun v => convert R (snd v)) t = map snd t).
    { apply map_ext_in. intros v Hv. apply IntegerSpec.convert_in_range; auto. }
    change (convert R (snd x) :: casts) with (map (fun v => convert R (snd v)) t)
      in Hlo, Hhi.
    rewrite Hid in Hlo, Hhi. split; [exact Hlo|]. split; [exact Hhi|]. split.
    + intros v Hv. rewrite <- (IntegerSpec.convert_in_range R (snd v)) by auto.
      now apply Hbounds.
    + unfold min, common_type, t in *. cbn [map bind] in *. fold R.
      now rewrite Hid.
Qed.

End TupleIntSpec.
